(** * Enrichment pipeline of the Trains exhibit (image-analysis/enrich_trains.py)

    A shallow embedding of the pipeline's pure and stateful parts:
    [slugify], the manifest cache ([fetch_manifest]), the manifest resolver
    ([extract_image_url]), the two zero-shot tagging paths, the per-item
    controller ([phase1_fetch_and_tag]) and the similarity pass
    ([phase2_assign_similar]).

    Conventions.
    - A Python [str] is a list of Unicode code points ([N]).  The Unicode
      tables behind [str.lower], the regex classes [\w] and [\s] (the
      latter is also the class [str.strip] removes) are parameters.
    - Floating-point numbers are idealised as rationals ([Q]).
    - The cache directory is a pair of finite maps (one per file suffix),
      the network and the vision-language model are parameters, and every
      collaborator call is recorded in a log carried by the state.
    - A Python exception is an explicit [Raise] result. *)

From Stdlib Require Import QArith Lia List Bool Ascii String Sorted.
From stdpp Require Import numbers gmap.
From stdpp Require Import base option list.

Local Open Scope Z_scope.
Local Open Scope list_scope.
Local Open Scope bool_scope.

(** ** Strings *)

Definition str := list N.

Definition u (s : string) : str :=
  List.map N_of_ascii (list_ascii_of_string s).

Definition HYPHEN : N := 45%N.
Definition UNDERSCORE : N := 95%N.

(** [l[:k]] for an arbitrary Python integer [k]. *)
Definition py_take {A} (k : Z) (l : list A) : list A :=
  if 0 <=? k then take (Z.to_nat k) l
  else take (length l - Z.to_nat (- k)) l.

(** [l[-k:]] for a positive literal [k]. *)
Definition py_last {A} (k : nat) (l : list A) : list A :=
  drop (length l - k) l.

(** [tail] is [l[-k:]]: the last [k] elements of [l], or all of [l] when
    it has fewer. *)
Definition last_chars {A} (k : nat) (l tail : list A) : Prop :=
  exists head, l = head ++ tail /\
               (length tail = k \/ (head = [] /\ (length tail < k)%nat)).

(** ** Python values as they come out of [json.loads]

    A [JObj] lists the items of the dict (distinct keys, insertion order).
    A number is kept by its integer value: the operations used here only
    ask whether it is zero, and refuse to index it or to call [.get] on
    it, which holds of floats alike. *)

Local Unset Elimination Schemes.
Inductive json : Type :=
| JNull
| JBool (b : bool)
| JNum (n : Z)
| JStr (s : str)
| JArr (l : list json)
| JObj (kv : list (str * json)).
Local Set Elimination Schemes.

Inductive exn : Type := IndexError | KeyError | TypeError | AttributeError.

Inductive result (A : Type) : Type :=
| Ok (a : A)
| Raise (e : exn).
Arguments Ok {A} a.
Arguments Raise {A} e.

Definition rbind {A B} (r : result A) (k : A -> result B) : result B :=
  match r with
  | Ok a => k a
  | Raise e => Raise e
  end.

Notation "'let*' x ':=' r 'in' k" := (rbind r (fun x => k))
  (at level 10, x name, r at level 100, k at level 200).

Fixpoint assoc {V} (k : str) (kv : list (str * V)) : option V :=
  match kv with
  | [] => None
  | (k', v) :: r => if decide (k' = k) then Some v else assoc k r
  end.

(** [bool(x)] *)
Definition truthy (x : json) : bool :=
  match x with
  | JNull => false
  | JBool b => b
  | JNum n => negb (n =? 0)
  | JStr s => match s with [] => false | _ => true end
  | JArr l => match l with [] => false | _ => true end
  | JObj kv => match kv with [] => false | _ => true end
  end.

(** [x.get(k, d)]: only a dict has the method. *)
Definition py_get (x : json) (k : str) (d : json) : result json :=
  match x with
  | JObj kv => Ok (default d (assoc k kv))
  | _ => Raise AttributeError
  end.

(** [x[0]] *)
Definition py_item0 (x : json) : result json :=
  match x with
  | JArr [] => Raise IndexError
  | JArr (v :: _) => Ok v
  | JStr [] => Raise IndexError
  | JStr (c :: _) => Ok (JStr [c])
  | JObj _ => Raise KeyError
  | JNull | JBool _ | JNum _ => Raise TypeError
  end.

Definition is_dict (x : json) : bool :=
  match x with JObj _ => true | _ => false end.

Definition is_list (x : json) : bool :=
  match x with JArr _ => true | _ => false end.

(** ** slugify *)

Section Slugify.

(** [str.lower], the regex class [\w], and the class [\s]. *)
Variable lower : str -> str.
Variable is_word : N -> bool.
Variable is_space : N -> bool.

(** [re.sub(r"[^\w\s-]", "", s)] *)
Definition keep_char (c : N) : bool :=
  is_word c || is_space c || (c =? HYPHEN)%N.

Definition strip_specials (s : str) : str := List.filter keep_char s.

(** [s.strip()] *)
Fixpoint lstrip (s : str) : str :=
  match s with
  | [] => []
  | c :: r => if is_space c then lstrip r else s
  end.

Fixpoint rstrip (s : str) : str :=
  match s with
  | [] => []
  | c :: r =>
      match rstrip r with
      | [] => if is_space c then [] else [c]
      | r' => c :: r'
      end
  end.

Definition strip (s : str) : str := rstrip (lstrip s).

(** [re.sub(r"[\s_]+", "-", s)]: every maximal run becomes one hyphen. *)
Definition is_sep (c : N) : bool := is_space c || (c =? UNDERSCORE)%N.

Fixpoint collapse (in_run : bool) (s : str) : str :=
  match s with
  | [] => []
  | c :: r =>
      if is_sep c
      then (if in_run then collapse true r else HYPHEN :: collapse true r)
      else c :: collapse false r
  end.

Definition slugify (text : str) : str :=
  let s := lower text in
  let s := strip_specials s in
  let s := collapse false (strip s) in
  take 80 s.

End Slugify.

(** ** Manifest resolver *)

Section Resolver.

(** [repr] of a value that is not a string, as an f-string renders it. *)
Variable py_repr : json -> str.

Definition fstr (v : json) : str :=
  match v with
  | JStr s => s
  | _ => py_repr v
  end.

(** The body of the [try] block: [Ok (Some v)] is [return v],
    [Ok None] is falling out of the block. *)
Definition resolve_primary (manifest : json) : result (option json) :=
  let* seq := py_get manifest (u "sequences") (JArr []) in
  if truthy seq then
    let* seq0 := py_item0 seq in
    let* canvases := py_get seq0 (u "canvases") (JArr []) in
    let* canvas := py_item0 canvases in
    let* images := py_get canvas (u "images") (JArr []) in
    let* img := py_item0 images in
    let* res := py_get img (u "resource") (JObj []) in
    let* url := py_get res (u "@id") (JStr []) in
    if truthy url then Ok (Some url)
    else
      let* svc := py_get res (u "service") (JObj []) in
      let* svc_id :=
        (if is_dict svc then py_get svc (u "@id") (JStr []) else Ok (JStr [])) in
      if truthy svc_id
      then Ok (Some (JStr (fstr svc_id ++ u "/full/800,/0/default.jpg")))
      else Ok None
  else Ok None.

(** [except (IndexError, KeyError, TypeError): pass] *)
Definition caught (e : exn) : bool :=
  match e with
  | IndexError | KeyError | TypeError => true
  | AttributeError => false
  end.

Definition resolve_thumbnail (manifest : json) : result json :=
  let* thumb := py_get manifest (u "thumbnail") JNull in
  if truthy thumb then
    let* thumb := (if is_list thumb then py_item0 thumb else Ok thumb) in
    py_get thumb (u "@id") (JStr [])
  else Ok (JStr []).

Definition extract_image_url (manifest : json) : result json :=
  match resolve_primary manifest with
  | Ok (Some v) => Ok v
  | Ok None => resolve_thumbnail manifest
  | Raise e => if caught e then resolve_thumbnail manifest else Raise e
  end.

End Resolver.

(** ** Numeric helpers (numpy / torch on idealised numbers) *)

Definition Qltb (a b : Q) : bool := negb (Qle_bool b a).

Definition Qsum (l : list Q) : Q := fold_right Qplus 0%Q l.

(** [max(a, b)] and [logits.max()] *)
Definition Qmax2 (a b : Q) : Q := if Qle_bool a b then b else a.

Definition Qmax_list (l : list Q) : Q :=
  match l with
  | [] => 0%Q
  | x :: r => fold_right Qmax2 x r
  end.

(** One entry of [a @ b.T]. *)
Definition dot (a b : list Q) : Q := Qsum (zip_with Qmult a b).

(** [mat @ mat.T] *)
Definition cosine_sim_matrix (embeddings : list (list Q)) : list (list Q) :=
  List.map (fun a => List.map (dot a) embeddings) embeddings.

(** [enumerate(l)] *)
Definition enumerate {A} (l : list A) : list (nat * A) :=
  zip (seq 0 (length l)) l.

(** [sorted(l, key=key)]: Python's sort is stable; an element is placed
    before the first element of the already sorted tail whose key is not
    strictly smaller. *)
Fixpoint insert_by {A} (key : A -> Q) (x : A) (l : list A) : list A :=
  match l with
  | [] => [x]
  | y :: r => if Qltb (key y) (key x) then y :: insert_by key x r else x :: l
  end.

Definition sorted_by {A} (key : A -> Q) (l : list A) : list A :=
  fold_right (insert_by key) [] l.

(** [key=lambda x: -x[1]] *)
Definition neg_snd {A} (x : A * Q) : Q := (- snd x)%Q.

(** The order a stable sort on [key] leaves between two entries that
    carry their original position: a strictly smaller key, or an equal
    key and an earlier position. *)
Definition sorted_before {A} (key : A -> Q) (a b : nat * A) : Prop :=
  (key (snd a) < key (snd b))%Q \/
  (key (snd a) == key (snd b) /\ (fst a < fst b)%nat).


(** Two (label, score) entries with the same label and scores equal as
    rationals. *)
Definition same_entry (a b : str * Q) : Prop := fst a = fst b /\ snd a == snd b.

(** The probabilities follow the scores: of two labels, the one whose
    score is not larger has a probability that is not larger.  Hence a
    label with a strictly larger probability has a strictly larger
    score. *)
Definition order_kept (scores probs : list Q) : Prop :=
  forall i j x y p q,
    scores !! i = Some x -> scores !! j = Some y ->
    probs !! i = Some p -> probs !! j = Some q ->
    (x <= y)%Q -> (p <= q)%Q.

(** No two different scores have got the same probability. *)
Definition distinct_kept (scores probs : list Q) : Prop :=
  forall i j x y p q,
    scores !! i = Some x -> scores !! j = Some y ->
    probs !! i = Some p -> probs !! j = Some q ->
    (x < y)%Q -> ~ (p == q)%Q.


(** Seen from an embedding [e], the (position, embedding) entry [a] goes
    before [b]: it is strictly more similar to [e], or as similar and
    earlier in the catalog. *)
Definition closer (e : list Q) (a b : nat * list Q) : Prop :=
  (dot e (snd b) < dot e (snd a))%Q \/
  (dot e (snd a) == dot e (snd b) /\ (fst a < fst b)%nat).

(** ** Zero-shot tagger *)

Section Tagger.

Variable image : Type.

(** The vision-language model and its processor, one label at a time:
    [model(text=labels, images=image).logits_per_image[0][j]],
    [model.get_image_features], [model.get_text_features],
    [model.logit_scale.exp()]; [x / x.norm(dim=-1, keepdim=True)]; and
    the exponential behind [softmax].  Nothing is assumed of [exp] here:
    in single precision it is only weakly increasing, and it is zero far
    enough below zero. *)
Variable clip_logit_per_image : image -> str -> Q.
Variable clip_image_features : image -> list Q.
Variable clip_text_features : str -> list Q.
Variable logit_scale_exp : Q.
Variable unit_norm : list Q -> list Q.
Variable exp : Q -> Q.

(** [logits.softmax(dim=-1)], as torch computes it: the exponentials are
    taken of the logits less their maximum and divided by their sum, so
    the largest logit always contributes [exp 0]. *)
Definition softmax (logits : list Q) : list Q :=
  let shifted := List.map (fun x => (x - Qmax_list logits)%Q) logits in
  let total := Qsum (List.map exp shifted) in
  List.map (fun x => (exp x / total)%Q) shifted.

Definition get_embedding (img : image) : list Q :=
  unit_norm (clip_image_features img).

Definition rank_labels (labels : list str) (probs : list Q) (top_k : Z)
  : list str :=
  let ranked := sorted_by neg_snd (zip labels probs) in
  List.map fst (py_take top_k ranked).

Definition zero_shot (img : image) (labels : list str) (top_k : Z)
  : list str :=
  let logits := List.map (clip_logit_per_image img) labels in
  let probs := softmax logits in
  rank_labels labels probs top_k.

Definition embedding_logits (image_emb : list Q) (labels : list str)
  : list Q :=
  let text_feats := List.map (fun l => unit_norm (clip_text_features l)) labels in
  List.map (fun t => (dot image_emb t * logit_scale_exp)%Q) text_feats.

Definition zero_shot_from_embedding (image_emb : list Q) (labels : list str)
    (top_k : Z) : list str :=
  let logits := embedding_logits image_emb labels in
  let probs := softmax logits in
  rank_labels labels probs top_k.

End Tagger.


(** ** Items, the cache directory and the state monad *)

(** A catalog record, a dict with at least [title] and [manifest]; the
    four keys the pipeline writes are [None] while the key is absent.
    Keys the pipeline never reads or writes are left out. *)
Record item : Type := Item {
  title : str;
  manifest : str;
  id : option str;
  image_url : option json;
  visual_tags : option (list str);
  similar_items : option (list str)
}.

Definition set_id (v : str) (it : item) : item :=
  Item (title it) (manifest it) (Some v) (image_url it) (visual_tags it)
       (similar_items it).

Definition set_image_url (v : json) (it : item) : item :=
  Item (title it) (manifest it) (id it) (Some v) (visual_tags it)
       (similar_items it).

Definition set_visual_tags (v : list str) (it : item) : item :=
  Item (title it) (manifest it) (id it) (image_url it) (Some v)
       (similar_items it).

Definition set_similar_items (v : list str) (it : item) : item :=
  Item (title it) (manifest it) (id it) (image_url it) (visual_tags it)
       (Some v).

(** [force_retag or "visual_tags" not in item] *)
Definition retag (force : bool) (it : item) : bool :=
  force || negb (bool_decide (is_Some (visual_tags it))).

(** A cached manifest file either parses back to the document that was
    dumped into it, or [json.loads] fails on it. *)
Inductive cache_file : Type :=
| Readable (doc : json)
| Corrupt.

(** Calls made to the collaborators and the controller's decisions. *)
Inductive event : Type :=
| NetManifest (url : str)
| NetImage (url : json)
| TagFromImage (item_id : str)
| TagFromEmbedding (item_id : str)
| Embed (item_id : str)
| SaveEmbedding (item_id : str)
| CachedSkip (item_id : str).

Record world : Type := World {
  emb_files : gmap str (list Q);
  manifest_files : gmap str cache_file;
  log : list event
}.

Definition emit (e : event) (w : world) : world :=
  World (emb_files w) (manifest_files w) (log w ++ [e]).

(** The events that go to the network. *)
Definition is_fetch (e : event) : bool :=
  match e with
  | NetManifest _ | NetImage _ => true
  | _ => false
  end.

Definition write_manifest (slug : str) (doc : json) (w : world) : world :=
  World (emb_files w) (<[slug := Readable doc]> (manifest_files w)) (log w).

Definition save_embedding (item_id : str) (emb : list Q) (w : world) : world :=
  World (<[item_id := emb]> (emb_files w)) (manifest_files w) (log w).

(** [np.load] of the file when it exists.  An embedding file that is
    present is one [save_embedding] wrote, and loads; a damaged [.npy]
    file, on which [np.load] raises, is not among the states of [world]. *)
Definition load_embedding (item_id : str) (w : world) : option (list Q) :=
  emb_files w !! item_id.

(** ** The pipeline *)

Section Pipeline.

Variable lower : str -> str.
Variable is_word : N -> bool.
Variable is_space : N -> bool.
Variable py_repr : json -> str.

Variable image : Type.
Variable clip_logit_per_image : image -> str -> Q.
Variable clip_image_features : image -> list Q.
Variable clip_text_features : str -> list Q.
Variable logit_scale_exp : Q.
Variable unit_norm : list Q -> list Q.
Variable exp : Q -> Q.

(** The transport: [requests.get(url).json()] after [raise_for_status]
    for a manifest, and [Image.open(requests.get(url).content)] for an
    image; [None] stands for any exception on the way. *)
Variable http_get_json : str -> option json.
Variable http_get_image : json -> option image.

(** The module's globals: the tag schema (a dict literal, in insertion
    order) and the two counts [main] overwrites from the command line. *)
Variable TAG_PROMPTS : list (str * str).
Variable TOP_TAGS : Z.
Variable TOP_SIMILAR : Z.

Local Abbreviation slug := (slugify lower is_word is_space).
Local Abbreviation tag_image :=
  (zero_shot image clip_logit_per_image exp).
Local Abbreviation tag_embedding :=
  (zero_shot_from_embedding clip_text_features logit_scale_exp unit_norm exp).
Local Abbreviation embed := (get_embedding image clip_image_features unit_norm).

(** The result [None] is the [return None] of the [except] branch.  A
    document that is JSON [null] is [Some JNull]: Python shows it as
    [None] too, and the caller's [not manifest] treats both alike
    ([falsy_manifest]). *)
Definition fetch_manifest (url : str) (w : world) : option json * world :=
  let slug_ := slug (py_last 60 url) in
  match manifest_files w !! slug_ with
  | Some (Readable doc) => (Some doc, w)
  | _ =>
      let w := emit (NetManifest url) w in
      match http_get_json url with
      | Some data => (Some data, write_manifest slug_ data w)
      | None => (None, w)
      end
  end.

Definition fetch_image (url : json) (w : world) : option image * world :=
  (http_get_image url, emit (NetImage url) w).

(** [list(TAG_PROMPTS.values())] *)
Definition prompts : list str := List.map snd TAG_PROMPTS.

(** [{v: k for k, v in TAG_PROMPTS.items()}.get(p, p)]: a later entry
    with the same prompt overwrites an earlier one. *)
Definition prompt_to_label (p : str) : str :=
  default p (assoc p (rev (List.map (fun kv => (snd kv, fst kv)) TAG_PROMPTS))).

(** [not manifest], for the [Optional] that [fetch_manifest] returns. *)
Definition falsy_manifest (m : option json) : bool :=
  match m with
  | None => true
  | Some doc => negb (truthy doc)
  end.

(** One iteration of the loop of [phase1_fetch_and_tag]: the item as
    mutated and the entry appended to [embeddings]. *)
Definition process_item (force_retag : bool) (it : item) (w : world)
  : result (item * option (list Q)) * world :=
  let item_id := slug (title it) in
  let it := set_id item_id it in
  match load_embedding item_id w with
  | Some cached_emb =>
      if force_retag || negb (bool_decide (is_Some (visual_tags it))) then
        let top_prompts := tag_embedding cached_emb prompts TOP_TAGS in
        (Ok (set_visual_tags (List.map prompt_to_label top_prompts) it,
             Some cached_emb),
         emit (TagFromEmbedding item_id) w)
      else
        (Ok (it, Some cached_emb), emit (CachedSkip item_id) w)
  | None =>
      let '(manifest_, w) := fetch_manifest (manifest it) w in
      if falsy_manifest manifest_ then
        (Ok (set_image_url (JStr []) it, None), w)
      else
        match extract_image_url py_repr (default JNull manifest_) with
        | Raise e => (Raise e, w)
        | Ok image_url_ =>
            let it := set_image_url image_url_ it in
            if negb (truthy image_url_) then (Ok (it, None), w)
            else
              let '(image_, w) := fetch_image image_url_ w in
              match image_ with
              | None => (Ok (it, None), w)
              | Some img =>
                  let top_prompts := tag_image img prompts TOP_TAGS in
                  let w := emit (TagFromImage item_id) w in
                  let it :=
                    set_visual_tags (List.map prompt_to_label top_prompts) it in
                  let emb := embed img in
                  let w := emit (Embed item_id) w in
                  let w := save_embedding item_id emb w in
                  let w := emit (SaveEmbedding item_id) w in
                  (Ok (it, Some emb), w)
              end
        end
  end.

(** What holds of an item and its entry in [embeddings] once the loop has
    passed it: the id is the slug of the title, and an item with an
    embedding has tags and has that embedding in the cache under its id. *)
Definition item_ok (w : world) (it' : item) (oe : option (list Q)) : Prop :=
  id it' = Some (slug (title it')) /\
  (forall e, oe = Some e ->
     is_Some (visual_tags it') /\ emb_files w !! slug (title it') = Some e).

(** The loop itself; Python mutates [items] in place and returns
    [embeddings], here both come back. *)
Fixpoint phase1_fetch_and_tag (force_retag : bool) (items : list item)
    (w : world) : result (list item * list (option (list Q))) * world :=
  match items with
  | [] => (Ok ([], []), w)
  | it :: rest =>
      match process_item force_retag it w with
      | (Raise e, w) => (Raise e, w)
      | (Ok (it', emb), w) =>
          match phase1_fetch_and_tag force_retag rest w with
          | (Raise e, w) => (Raise e, w)
          | (Ok (items', embeddings), w) =>
              (Ok (it' :: items', emb :: embeddings), w)
          end
      end
  end.

(** [[(i, e) for i, e in enumerate(embeddings) if e is not None]] *)
Definition valid_of (embeddings : list (option (list Q)))
  : list (nat * list Q) :=
  omap (fun ie => match snd ie with
                  | Some e => Some (fst ie, e)
                  | None => None
                  end) (enumerate embeddings).

(** The list comprehension of the ranker, before the slice. *)
Fixpoint pick_similar (ids : list str) (valid_indices : list nat) (i : nat)
    (sorted_j : list (nat * Q)) : result (list str) :=
  match sorted_j with
  | [] => Ok []
  | (j, _) :: r =>
      match valid_indices !! j with
      | None => Raise IndexError
      | Some vj =>
          if decide (vj <> i) then
            match ids !! vj with
            | None => Raise IndexError
            | Some x =>
                let* xs := pick_similar ids valid_indices i r in Ok (x :: xs)
            end
          else pick_similar ids valid_indices i r
      end
  end.

Definition similar_for (ids : list str) (valid_indices : list nat)
    (row : list Q) (i : nat) : result (list str) :=
  let sorted_j := sorted_by neg_snd (enumerate row) in
  let* chosen := pick_similar ids valid_indices i sorted_j in
  Ok (py_take TOP_SIMILAR chosen).

(** The [for rank, i in enumerate(valid_indices)] loop. *)
Fixpoint assign_loop (ids : list str) (valid_indices : list nat)
    (sim : list (list Q)) (todo : list (nat * nat)) (items : list item)
  : result (list item) :=
  match todo with
  | [] => Ok items
  | (rank, i) :: rest =>
      match sim !! rank with
      | None => Raise IndexError
      | Some row =>
          let* similar := similar_for ids valid_indices row i in
          match items !! i with
          | None => Raise IndexError
          | Some it =>
              assign_loop ids valid_indices sim rest
                (<[i := set_similar_items similar it]> items)
          end
      end
  end.

Definition phase2_assign_similar (items : list item)
    (embeddings : list (option (list Q))) (ids : list str)
  : result (list item) :=
  let valid := valid_of embeddings in
  if (length valid <? 2)%nat then Ok items
  else
    let valid_indices := List.map fst valid in
    let valid_embs := List.map snd valid in
    let sim := cosine_sim_matrix valid_embs in
    assign_loop ids valid_indices sim (enumerate valid_indices) items.

(** What the ranker computes for the item at position [i] whose
    embedding is [e], when no lookup fails: the comprehension as a
    filter-map over the ranked row. *)
Definition pick_of (ids : list str) (valid_indices : list nat) (i : nat)
    (jq : nat * Q) : option str :=
  match valid_indices !! fst jq with
  | Some vj => if decide (vj <> i) then ids !! vj else None
  | None => None
  end.

Definition neighbours (ids : list str) (embeddings : list (option (list Q)))
    (i : nat) (e : list Q) : list str :=
  let valid := valid_of embeddings in
  let row := List.map (dot e) (List.map snd valid) in
  py_take TOP_SIMILAR
    (omap (pick_of ids (List.map fst valid) i) (sorted_by neg_snd (enumerate row))).

(** [[item["id"] for item in items]] *)
Fixpoint item_ids (items : list item) : result (list str) :=
  match items with
  | [] => Ok []
  | it :: rest =>
      match id it with
      | None => Raise KeyError
      | Some x => let* xs := item_ids rest in Ok (x :: xs)
      end
  end.

(** [main] between reading the catalog and writing the artifact: the
    enriched items are the output artifact. *)
Definition enrich (force_retag : bool) (items : list item) (w : world)
  : result (list item) * world :=
  match phase1_fetch_and_tag force_retag items w with
  | (Raise e, w) => (Raise e, w)
  | (Ok (items', embeddings), w) =>
      (let* ids := item_ids items' in
       phase2_assign_similar items' embeddings ids, w)
  end.

End Pipeline.

(** ** The tag distribution that [main] prints *)

(** [tag_counts[tag] = tag_counts.get(tag, 0) + 1], on a dict kept in
    insertion order: a known tag is counted up in place, a new one is
    appended. *)
Fixpoint count_tag (tag : str) (tag_counts : list (str * Z)) : list (str * Z) :=
  match tag_counts with
  | [] => [(tag, 1)]
  | (k, n) :: r =>
      if decide (k = tag) then (k, n + 1) :: r else (k, n) :: count_tag tag r
  end.

(** [for tag in item.get("visual_tags", []): ...] *)
Definition count_item (tag_counts : list (str * Z)) (it : item)
  : list (str * Z) :=
  fold_left (fun d tag => count_tag tag d) (default [] (visual_tags it)) tag_counts.

(** [for item in items: ...], from the empty dict. *)
Definition tag_counts_of (items : list item) : list (str * Z) :=
  fold_left count_item items [].

(** [sorted(tag_counts.items(), key=lambda x: -x[1])] *)
Definition neg_count (x : str * Z) : Q := (- inject_Z (snd x))%Q.

Definition tag_distribution (items : list item) : list (str * Z) :=
  sorted_by neg_count (tag_counts_of items).

(** All the tags of a catalog, item after item. *)
Definition all_tags (items : list item) : list str :=
  concat (List.map (fun it => default [] (visual_tags it)) items).

(** How often [t] occurs in [l]. *)
Definition occurrences (t : str) (l : list str) : Z :=
  Z.of_nat (length (filter (fun x => x = t) l)).

(** A counter dict in good order: distinct keys, positive counts. *)
Definition counts_ok (d : list (str * Z)) : Prop :=
  NoDup (List.map fst d) /\ Forall (fun kv => 0 < snd kv) d.

(** [f] keeps and reflects the strict order of the scores in [scores]. *)
Definition order_preserving_on (f : Q -> Q) (scores : list Q) : Prop :=
  forall x y, x ∈ scores -> y ∈ scores -> ((x < y)%Q <-> (f x < f y)%Q).

(** [f] applied to the score of a (label, score) entry. *)
Definition on_score (f : Q -> Q) (x : str * Q) : str * Q := (fst x, f (snd x)).

(** ** Concrete collaborators for the examples

    The ASCII fragment of the Unicode tables, a two-dimensional joint
    space in which an image is its own (already unit-norm) feature vector,
    and the tag schema of the module. *)

Module Ascii.

Definition between (lo hi c : N) : bool := ((lo <=? c) && (c <=? hi))%N.

Definition lower (s : str) : str :=
  List.map (fun c => if between 65 90 c then (c + 32)%N else c) s.

Definition is_word (c : N) : bool :=
  between 48 57 c || between 65 90 c || between 97 122 c || (c =? 95)%N.

Definition is_space (c : N) : bool :=
  between 9 13 c || between 28 31 c || (c =? 32)%N.

Definition slug : str -> str := slugify lower is_word is_space.

End Ascii.

Module Demo.

Definition image : Type := list Q.

Definition py_repr (v : json) : str :=
  match v with
  | JNull => u "None"
  | JBool true => u "True"
  | JBool false => u "False"
  | _ => u "<repr>"
  end.

Definition clip_image_features (img : image) : list Q := img.
Definition unit_norm (v : list Q) : list Q := v.
Definition logit_scale_exp : Q := 100%Q.

(** A label's text features: decided by its first letter. *)
Definition clip_text_features (label : str) : list Q :=
  match label with
  | 97%N :: 32%N :: 115%N :: _ => [1; 0]%Q
  | 97%N :: 32%N :: 100%N :: _ => [0; 1]%Q
  | _ => [3 # 5; 4 # 5]%Q
  end.

Definition clip_logit_per_image (img : image) (label : str) : Q :=
  (dot (unit_norm (clip_image_features img))
       (unit_norm (clip_text_features label)) * logit_scale_exp)%Q.

(** A positive, increasing stand-in for the exponential. *)
Definition exp (x : Q) : Q :=
  if Qle_bool 0 x then (1 + x)%Q else (1 / (1 - x))%Q.

Definition TAG_PROMPTS : list (str * str) :=
  [ (u "steam locomotive", u "a steam locomotive with visible smoke, steam, or smokestack");
    (u "diesel locomotive", u "a diesel locomotive or diesel-electric train engine");
    (u "electric locomotive", u "an electric locomotive or electric train with overhead wires or third rail");
    (u "passenger train", u "a passenger train with passenger cars or coaches");
    (u "freight train", u "a freight train with boxcars, tankers, or flatcars");
    (u "yard / switching", u "a rail yard with multiple tracks, switching operations, or parked rolling stock");
    (u "station / depot", u "a railroad station, train depot, or platform where passengers board");
    (u "rail yard", u "a railroad yard with many tracks, signals, and parked trains");
    (u "open track", u "a train on open track through countryside, fields, or rural landscape");
    (u "urban / industrial", u "a train in an urban or industrial setting with buildings and infrastructure");
    (u "bridge / trestle", u "a railroad bridge, trestle, or viaduct");
    (u "vintage (pre-1920s)", u "a very old photograph from the early 1900s or 19th century, sepia toned");
    (u "mid-century", u "a mid-20th century photograph from the 1930s to 1950s");
    (u "black and white", u "a black and white photograph with no color");
    (u "color photo", u "a color photograph");
    (u "close-up detail", u "a close-up or detail shot showing mechanical parts, wheels, or equipment");
    (u "photograph", u "a photographic image, a real photograph of a scene");
    (u "poster / illustration", u "an illustrated poster, drawing, or graphic design, not a photograph") ].


Definition TOP_TAGS : Z := 4.
Definition TOP_SIMILAR : Z := 3.

(** A transport that serves two manifests and two images. *)
Definition manifest_doc (img_url : string) : json :=
  JObj [(u "sequences",
         JArr [JObj [(u "canvases",
           JArr [JObj [(u "images",
             JArr [JObj [(u "resource", JObj [(u "@id", JStr (u img_url))])]])]])]])].

(** Manifests of shapes the resolver mishandles. *)
Definition string_thumbnail_manifest : json :=
  JObj [(u "thumbnail", JStr (u "https://example.org/iiif/thumb/7.jpg"))].

Definition scalar_sequence_manifest : json :=
  JObj [(u "sequences", JArr [JNum 5])].

Definition numeric_id_manifest : json :=
  JObj [(u "thumbnail", JObj [(u "@id", JNum 7)])].

Definition http_get_json (url : str) : option json :=
  if decide (url = u "https://example.org/iiif/a/manifest.json")
  then Some (manifest_doc "https://example.org/a.jpg")
  else if decide (url = u "https://example.org/iiif/b/manifest.json")
  then Some (manifest_doc "https://example.org/b.jpg")
  else if decide (url = u "https://example.org/iiif/c/manifest.json")
  then Some (manifest_doc "https://example.org/c.jpg")
  else None.

Definition http_get_image (url : json) : option image :=
  match url with
  | JStr s =>
      if decide (s = u "https://example.org/a.jpg") then Some [1; 0]%Q
      else if decide (s = u "https://example.org/b.jpg") then Some [0; 1]%Q
      else None
  | _ => None
  end.

Definition new_item (t m : string) : item :=
  Item (u t) (u m) None None None None.

Definition empty_world : world := World ∅ ∅ [].

(** Sample records: A and B resolve and download; C resolves but its image
    cannot be fetched; the manifest of D cannot be fetched; the title of
    the last one slugifies like that of A. *)
Definition item_a : item := new_item "Train A" "https://example.org/iiif/a/manifest.json".
Definition item_b : item := new_item "Train B" "https://example.org/iiif/b/manifest.json".
Definition item_c : item := new_item "Train C" "https://example.org/iiif/c/manifest.json".
Definition item_d : item := new_item "Train D" "https://example.org/iiif/d/manifest.json".
Definition item_a_twin : item :=
  new_item "Train  A!" "https://example.org/iiif/b/manifest.json".

(** A cache directory that already holds the embedding of A. *)
Definition cached_world : world := World {[ u "train-a" := [1; 0]%Q ]} ∅ [].

(** A cache directory in which the manifest file of A is unreadable. *)
Definition corrupt_world : world :=
  World ∅ {[ Ascii.slug (py_last 60 (manifest item_a)) := Corrupt ]} [].

(** A transport that answers every manifest request with a document
    naming the URI it was asked for, and two URIs with one cache key. *)
Definition echo_json (url : str) : option json :=
  Some (JObj [(u "@id", JStr url)]).

Definition uri_12_3 : str := u "https://example.org/iiif/coll/12/3/manifest.json".
Definition uri_1_23 : str := u "https://example.org/iiif/coll/1/23/manifest.json".

(** Two URIs of more than 60 characters on two hosts; their last 60
    characters differ and have the same slug. *)
Definition host_a : str := u "https://digital.library.example.org/collections".
Definition host_b : str := u "https://mirror.example.net".
Definition tail_12_3 : str :=
  u "/iiif/2/p15037coll3/railroads/photographs/12/3/manifest.json".
Definition tail_1_23 : str :=
  u "/iiif/2/p15037coll3/railroads/photographs/1/23/manifest.json".



Definition process_item top_tags : bool -> item -> world -> _ :=
  process_item Ascii.lower Ascii.is_word Ascii.is_space py_repr image
    clip_logit_per_image clip_image_features clip_text_features
    logit_scale_exp unit_norm exp http_get_json http_get_image TAG_PROMPTS
    top_tags.

Definition fetch_manifest : str -> world -> _ :=
  fetch_manifest Ascii.lower Ascii.is_word Ascii.is_space http_get_json.

Definition phase1 : bool -> list item -> world -> _ :=
  phase1_fetch_and_tag Ascii.lower Ascii.is_word Ascii.is_space py_repr image
    clip_logit_per_image clip_image_features clip_text_features
    logit_scale_exp unit_norm exp http_get_json http_get_image TAG_PROMPTS
    TOP_TAGS.

Definition enrich_with (top_similar : Z) : bool -> list item -> world -> _ :=
  enrich Ascii.lower Ascii.is_word Ascii.is_space py_repr image
    clip_logit_per_image clip_image_features clip_text_features
    logit_scale_exp unit_norm exp http_get_json http_get_image TAG_PROMPTS
    TOP_TAGS top_similar.

Definition enrich : bool -> list item -> world -> _ := enrich_with TOP_SIMILAR.

Definition tag_image : image -> list str -> Z -> list str :=
  zero_shot image clip_logit_per_image exp.

Definition tag_embedding : list Q -> list str -> Z -> list str :=
  zero_shot_from_embedding clip_text_features logit_scale_exp unit_norm exp.

Definition embed : image -> list Q :=
  get_embedding image clip_image_features unit_norm.

(** A first run over A and B from an empty cache directory, and what it
    leaves behind. *)
Definition first_phase1 := phase1 false [item_a; item_b] empty_world.
Definition first_run := enrich false [item_a; item_b] empty_world.

Definition artifact_of (r : result (list item) * world) : list item :=
  match fst r with
  | Ok out => out
  | Raise _ => []
  end.

Definition first_items : list item :=
  match fst first_phase1 with
  | Ok (items', _) => items'
  | Raise _ => []
  end.

Definition first_embeddings : list (option (list Q)) := [Some [1; 0]%Q; Some [0; 1]%Q].
Definition first_ids : list str := [u "train-a"; u "train-b"].

End Demo.

(** * Properties *)

(** ** slugify *)

Section SlugifyFacts.

Variable lower : str -> str.
Variable is_word : N -> bool.
Variable is_space : N -> bool.

Local Abbreviation slug := (slugify lower is_word is_space).

Lemma lstrip_suffix s : exists p, s = p ++ lstrip is_space s.
Proof.
  induction s as [|c r [p Hp]]; simpl.
  - by exists [].
  - destruct (is_space c).
    + exists (c :: p). simpl. by rewrite <- Hp.
    + by exists [].
Qed.

Lemma rstrip_prefix s : exists q, s = rstrip is_space s ++ q.
Proof.
  induction s as [|c r [q Hq]]; simpl.
  - by exists [].
  - destruct (rstrip is_space r) as [|d r'] eqn:E.
    + destruct (is_space c).
      * exists (c :: r). done.
      * exists r. done.
    + exists q. simpl. f_equal. exact Hq.
Qed.

Lemma strip_subseteq s : strip is_space s ⊆ s.
Proof.
  unfold strip. intros c Hc.
  destruct (lstrip_suffix s) as [p Hp].
  destruct (rstrip_prefix (lstrip is_space s)) as [q Hq].
  rewrite Hp, Hq. set_solver.
Qed.

Lemma collapse_elem b s c :
  c ∈ collapse is_space b s ->
  c = HYPHEN \/ (c ∈ s /\ is_sep is_space c = false).
Proof.
  revert b. induction s as [|d r IH]; simpl; intros b Hc.
  - set_solver.
  - destruct (is_sep is_space d) eqn:Hd.
    + destruct b.
      * destruct (IH _ Hc) as [?|[? ?]]; [by left | right; set_solver].
      * apply elem_of_cons in Hc as [->|Hc]; [by left|].
        destruct (IH _ Hc) as [?|[? ?]]; [by left | right; set_solver].
    + apply elem_of_cons in Hc as [->|Hc]; [right; set_solver|].
      destruct (IH _ Hc) as [?|[? ?]]; [by left | right; set_solver].
Qed.

Lemma strip_specials_elem s c :
  c ∈ strip_specials is_word is_space s -> keep_char is_word is_space c = true.
Proof.
  unfold strip_specials. rewrite list_elem_of_In, filter_In. tauto.
Qed.

Lemma slugify_elem text c :
  c ∈ slug text ->
  c = HYPHEN \/ (is_word c = true /\ is_space c = false /\ c <> UNDERSCORE).
Proof.
  unfold slugify. intros Hc.
  apply elem_of_take in Hc as (i & Hc & _).
  apply list_elem_of_lookup_2 in Hc.
  apply collapse_elem in Hc as [?|[Hc Hsep]]; [by left|].
  apply strip_subseteq, strip_specials_elem in Hc.
  unfold is_sep in Hsep. apply orb_false_iff in Hsep as [Hsp Hus].
  unfold keep_char in Hc. rewrite Hsp, orb_false_r in Hc.
  apply orb_true_iff in Hc as [Hc|Hc].
  - right. repeat split; [done..|]. intros ->. by rewrite N.eqb_refl in Hus.
  - left. by apply N.eqb_eq.
Qed.

Lemma slugify_length text : (length (slug text) <= 80)%nat.
Proof. unfold slugify. rewrite length_take. lia. Qed.

End SlugifyFacts.

(** ** Lists, enumeration and the stable sort *)

Lemma map_fmap {A B} (f : A -> B) (l : list A) : List.map f l = f <$> l.
Proof. reflexivity. Qed.

Lemma enumerate_lookup {A} (l : list A) (k : nat) :
  enumerate l !! k = (fun x => (k, x)) <$> l !! k.
Proof.
  unfold enumerate. rewrite lookup_zip_with.
  destruct (l !! k) as [x|] eqn:E; simpl.
  - apply lookup_lt_Some in E as Hlt. by rewrite lookup_seq_lt.
  - by destruct (seq 0 (length l) !! k).
Qed.

Lemma elem_of_enumerate {A} (l : list A) (k : nat) (x : A) :
  (k, x) ∈ enumerate l <-> l !! k = Some x.
Proof.
  rewrite list_elem_of_lookup. split.
  - intros [i Hi]. rewrite enumerate_lookup in Hi.
    destruct (l !! i) eqn:E; simpl in Hi; congruence.
  - intros H. exists k. by rewrite enumerate_lookup, H.
Qed.

Lemma enumerate_fst {A} (l : list A) :
  List.map fst (enumerate l) = seq 0 (length l).
Proof.
  unfold enumerate. rewrite map_fmap. apply fst_zip. by rewrite length_seq.
Qed.

Lemma enumerate_snd {A} (l : list A) : List.map snd (enumerate l) = l.
Proof.
  unfold enumerate. rewrite map_fmap. apply snd_zip. by rewrite length_seq.
Qed.

Lemma omap_cons_case {A B} (f : A -> option B) (x : A) (l : list A) :
  omap f (x :: l) = match f x with Some y => y :: omap f l | None => omap f l end.
Proof. reflexivity. Qed.

Lemma enumerate_length {A} (l : list A) : length (enumerate l) = length l.
Proof.
  unfold enumerate. rewrite length_zip_with, length_seq. apply Nat.min_id.
Qed.

Lemma insert_by_Permutation {A} (key : A -> Q) (x : A) (l : list A) :
  insert_by key x l ≡ₚ x :: l.
Proof.
  induction l as [|y r IH]; simpl; [done|].
  destruct (Qltb (key y) (key x)); [|done].
  rewrite IH. apply Permutation_swap.
Qed.

Lemma sorted_by_Permutation {A} (key : A -> Q) (l : list A) :
  sorted_by key l ≡ₚ l.
Proof.
  induction l as [|x r IH]; simpl; [done|].
  rewrite insert_by_Permutation. by rewrite IH.
Qed.

Lemma sorted_by_length {A} (key : A -> Q) (l : list A) :
  length (sorted_by key l) = length l.
Proof. apply Permutation_length, sorted_by_Permutation. Qed.

Lemma py_take_nat {A} (k : nat) (l : list A) : py_take (Z.of_nat k) l = take k l.
Proof.
  unfold py_take. destruct (0 <=? Z.of_nat k) eqn:E.
  - by rewrite Nat2Z.id.
  - apply Z.leb_gt in E. lia.
Qed.

Lemma py_take_subseteq {A} (k : Z) (l : list A) : py_take k l ⊆ l.
Proof.
  unfold py_take. intros x.
  destruct (0 <=? k); intros (i & H & _)%elem_of_take;
    by eapply list_elem_of_lookup_2.
Qed.


Section StableSort.

Context {A : Type} (key : A -> Q).

Local Abbreviation ikey := (fun x : nat * A => key (snd x)).

Lemma insert_by_sorted (x : nat * A) (l : list (nat * A)) :
  StronglySorted (sorted_before key) l ->
  Forall (fun z => (fst x < fst z)%nat) l ->
  StronglySorted (sorted_before key) (insert_by ikey x l).
Proof.
  induction l as [|y r IH]; intros Hs Hidx; simpl.
  - repeat constructor.
  - apply StronglySorted_inv in Hs as [Hr Hy].
    apply Forall_cons in Hidx as [Hxy Hidx].
    unfold Qltb. destruct (Qle_bool (key (snd x)) (key (snd y))) eqn:E; simpl.
    + apply Qle_bool_iff in E. constructor; [by constructor|].
      assert (Hle : forall z, (key (snd x) <= key (snd z))%Q -> (fst x < fst z)%nat ->
                              sorted_before key x z).
      { intros z Hz Hi. apply Qle_lteq in Hz as [?|?]; [by left|by right]. }
      constructor; [by apply Hle|].
      rewrite List.Forall_forall in Hy. apply Forall_forall. intros z Hz.
      apply Hle; [|by eapply (proj1 (Forall_forall _ _) Hidx)].
      apply list_elem_of_In in Hz.
      destruct (Hy z Hz) as [Hlt|[Heq _]].
      * eapply Qle_trans; [exact E|by apply Qlt_le_weak].
      * by rewrite <- Heq.
    + assert (Hyx : (key (snd y) < key (snd x))%Q).
      { apply Qnot_le_lt. intros H. apply Qle_bool_iff in H. congruence. }
      constructor; [by apply IH|].
      apply List.Forall_forall. intros z Hz.
      apply list_elem_of_In in Hz. rewrite insert_by_Permutation in Hz.
      apply elem_of_cons in Hz as [->|Hz]; [by left|].
      rewrite List.Forall_forall in Hy. apply Hy. by apply list_elem_of_In.
Qed.

Lemma sorted_by_stable (l : list (nat * A)) :
  StronglySorted (fun a b => (fst a < fst b)%nat) l ->
  StronglySorted (sorted_before key) (sorted_by ikey l).
Proof.
  induction l as [|x r IH]; intros Hs; simpl; [constructor|].
  apply StronglySorted_inv in Hs as [Hr Hx].
  apply insert_by_sorted; [by apply IH|].
  apply Forall_forall. intros z Hz. rewrite sorted_by_Permutation in Hz.
  rewrite List.Forall_forall in Hx. apply Hx. by apply list_elem_of_In.
Qed.

Lemma insert_by_snd (x : nat * A) (l : list (nat * A)) :
  List.map snd (insert_by ikey x l) = insert_by key (snd x) (List.map snd l).
Proof.
  induction l as [|y r IH]; simpl; [done|].
  destruct (Qltb _ _); simpl; [by rewrite IH|done].
Qed.

Lemma sorted_by_snd (l : list (nat * A)) :
  List.map snd (sorted_by ikey l) = sorted_by key (List.map snd l).
Proof.
  induction l as [|x r IH]; simpl; [done|].
  by rewrite insert_by_snd, IH.
Qed.

End StableSort.

Lemma zip_seq_increasing {A} (l : list A) : forall s,
  StronglySorted (fun a b : nat * A => (fst a < fst b)%nat) (zip (seq s (length l)) l).
Proof.
  induction l as [|x r IH]; intros s; simpl; constructor; [apply IH|].
  apply Forall_forall. intros [k y] Hin. simpl.
  apply list_elem_of_lookup in Hin as [j Hj].
  rewrite lookup_zip_with in Hj.
  destruct (seq (S s) (length r) !! j) as [k'|] eqn:Hk; [|done].
  apply lookup_seq in Hk as [-> _]. simpl in Hj.
  destruct (r !! j); simpl in Hj; [|done]. inversion Hj. lia.
Qed.

Lemma enumerate_increasing {A} (l : list A) :
  StronglySorted (fun a b : nat * A => (fst a < fst b)%nat) (enumerate l).
Proof. apply zip_seq_increasing. Qed.

Lemma StronglySorted_weaken {A} (R S : A -> A -> Prop) (l : list A) :
  (forall a b, R a b -> S a b) -> StronglySorted R l -> StronglySorted S l.
Proof.
  intros HRS. induction 1 as [|x r Hr IH Hx]; constructor; [done|].
  eapply List.Forall_impl; [|exact Hx]. intros b. apply HRS.
Qed.


(** ** The zero-shot tagger *)

Lemma Qsum_nonneg (l : list Q) :
  Forall (fun p => (0 <= p)%Q) l -> (0 <= Qsum l)%Q.
Proof.
  induction 1 as [|y r Hy _ IH]; simpl; [apply Qle_refl|].
  by apply (Qplus_le_compat 0 y 0 (Qsum r)).
Qed.

Lemma Qsum_pos (l : list Q) (x : Q) :
  Forall (fun p => (0 <= p)%Q) l -> x ∈ l -> (0 < x)%Q -> (0 < Qsum l)%Q.
Proof.
  intros Hall Hin Hx. induction Hall as [|y r Hy Hr IH]; simpl.
  - by apply elem_of_nil in Hin.
  - apply elem_of_cons in Hin as [<-|Hin].
    + apply (Qplus_lt_le_compat 0 x 0 (Qsum r)); [done|by apply Qsum_nonneg].
    + rewrite Qplus_comm.
      apply (Qplus_lt_le_compat 0 (Qsum r) 0 y); [by apply IH|done].
Qed.


Lemma Qmax2_spec (a b : Q) :
  (Qmax2 a b = a \/ Qmax2 a b = b) /\ (a <= Qmax2 a b)%Q /\ (b <= Qmax2 a b)%Q.
Proof.
  unfold Qmax2. destruct (Qle_bool a b) eqn:E.
  - apply Qle_bool_iff in E. split; [by right|]. split; [done|apply Qle_refl].
  - split; [by left|]. split; [apply Qle_refl|].
    apply Qlt_le_weak, Qnot_le_lt. intros H. apply Qle_bool_iff in H. congruence.
Qed.

Lemma Qmax2_proper (a a' b b' : Q) :
  (a == a')%Q -> (b == b')%Q -> (Qmax2 a b == Qmax2 a' b')%Q.
Proof.
  intros Ha Hb. unfold Qmax2.
  assert (H : Qle_bool a b = Qle_bool a' b').
  { destruct (Qle_bool a b) eqn:E, (Qle_bool a' b') eqn:E'; try done.
    - apply Qle_bool_iff in E. rewrite Ha, Hb in E. apply Qle_bool_iff in E.
      congruence.
    - apply Qle_bool_iff in E'. rewrite <- Ha, <- Hb in E'.
      apply Qle_bool_iff in E'. congruence. }
  rewrite H. by destruct (Qle_bool a' b').
Qed.

Lemma Qmax_list_elem (l : list Q) : l <> [] -> Qmax_list l ∈ l.
Proof.
  destruct l as [|x0 r]; [done|]. intros _. simpl.
  induction r as [|y r IH]; simpl; [left|].
  destruct (Qmax2_spec y (fold_right Qmax2 x0 r)) as [[-> | ->] _].
  - right. left.
  - apply elem_of_cons in IH as [->|IH]; [left|]. by do 2 right.
Qed.

Lemma Qmax_list_proper (l l' : list Q) :
  Forall2 Qeq l l' -> (Qmax_list l == Qmax_list l')%Q.
Proof.
  intros [|x x' r r' Hx Hr]; simpl; [reflexivity|].
  induction Hr as [|y y' r r' Hy _ IH]; simpl; [done|]. by apply Qmax2_proper.
Qed.

Lemma softmax_length (exp : Q -> Q) (logits : list Q) :
  length (softmax exp logits) = length logits.
Proof. unfold softmax. by rewrite !length_map. Qed.

Lemma softmax_lookup (exp : Q -> Q) (logits : list Q) (i : nat) (x p : Q) :
  logits !! i = Some x -> softmax exp logits !! i = Some p ->
  p = (exp (x - Qmax_list logits)
       / Qsum (List.map exp (List.map (fun x => x - Qmax_list logits)%Q logits)))%Q.
Proof.
  intros Hx. unfold softmax. rewrite !map_fmap, !list_lookup_fmap, Hx. simpl.
  by intros [= <-].
Qed.

Lemma softmax_total_nonneg (exp : Q -> Q) (l : list Q) :
  (forall x, (0 <= exp x)%Q) -> (0 <= Qsum (List.map exp l))%Q.
Proof.
  intros Hexp. apply Qsum_nonneg, Forall_forall. intros p Hp.
  rewrite map_fmap in Hp. apply list_elem_of_fmap in Hp as (x & -> & _).
  apply Hexp.
Qed.

Lemma softmax_total_pos (exp : Q -> Q) (logits : list Q) :
  Proper (Qeq ==> Qeq) exp ->
  (forall x, (0 <= exp x)%Q) ->
  (0 < exp 0)%Q ->
  logits <> [] ->
  (0 < Qsum (List.map exp (List.map (fun x => x - Qmax_list logits)%Q logits)))%Q.
Proof.
  intros Hp Hexp H0 Hne.
  apply (Qsum_pos _ (exp (Qmax_list logits - Qmax_list logits)%Q)).
  - apply Forall_forall. intros p Hin. rewrite map_fmap in Hin.
    apply list_elem_of_fmap in Hin as (x & -> & _). apply Hexp.
  - rewrite !map_fmap. apply list_elem_of_fmap_2.
    apply (list_elem_of_fmap_2 (fun x => (x - Qmax_list logits)%Q)).
    by apply Qmax_list_elem.
  - assert (Hz : (Qmax_list logits - Qmax_list logits == 0)%Q) by ring.
    by rewrite (Hp _ _ Hz).
Qed.


Lemma softmax_order_kept (exp : Q -> Q) (logits : list Q) :
  (forall x, (0 <= exp x)%Q) ->
  (forall x y, (x <= y)%Q -> (exp x <= exp y)%Q) ->
  order_kept logits (softmax exp logits).
Proof.
  intros Hexp Hmono i j x y p q Hx Hy Hpi Hqj Hxy.
  rewrite (softmax_lookup exp logits i x p Hx Hpi),
    (softmax_lookup exp logits j y q Hy Hqj).
  unfold Qdiv. apply Qmult_le_compat_r.
  - apply Hmono. unfold Qminus. by apply Qplus_le_l.
  - apply Qinv_le_0_compat. by apply softmax_total_nonneg.
Qed.



Lemma assoc_Some_elem {V} (k : str) (kv : list (str * V)) (v : V) :
  assoc k kv = Some v -> (k, v) ∈ kv.
Proof.
  induction kv as [|[k' v'] r IH]; simpl; [done|].
  destruct (decide (k' = k)) as [->|_].
  - intros [= ->]. left.
  - intros H. right. by apply IH.
Qed.



Lemma Qltb_proper (a a' b b' : Q) : a == a' -> b == b' -> Qltb a b = Qltb a' b'.
Proof.
  intros Ha Hb. unfold Qltb. f_equal.
  destruct (Qle_bool b a) eqn:E, (Qle_bool b' a') eqn:E'; try done.
  - apply Qle_bool_iff in E. rewrite Ha, Hb in E. apply Qle_bool_iff in E. congruence.
  - apply Qle_bool_iff in E'. rewrite <- Ha, <- Hb in E'. apply Qle_bool_iff in E'.
    congruence.
Qed.

Lemma insert_by_same (x x' : str * Q) (l l' : list (str * Q)) :
  same_entry x x' -> Forall2 same_entry l l' ->
  Forall2 same_entry (insert_by neg_snd x l) (insert_by neg_snd x' l').
Proof.
  intros Hx Hl. induction Hl as [|y y' r r' Hy Hr IH]; simpl.
  - constructor; [done|constructor].
  - rewrite (Qltb_proper (neg_snd y) (neg_snd y') (neg_snd x) (neg_snd x')).
    + destruct (Qltb _ _); [constructor; [done|exact IH]|].
      constructor; [done|]. by constructor.
    + unfold neg_snd. destruct Hy as [_ Hy]. by rewrite Hy.
    + unfold neg_snd. destruct Hx as [_ Hx]. by rewrite Hx.
Qed.

Lemma sorted_by_same (l l' : list (str * Q)) :
  Forall2 same_entry l l' ->
  Forall2 same_entry (sorted_by neg_snd l) (sorted_by neg_snd l').
Proof.
  induction 1; simpl; [constructor|]. by apply insert_by_same.
Qed.

Lemma same_entry_labels (l l' : list (str * Q)) :
  Forall2 same_entry l l' -> List.map fst l = List.map fst l'.
Proof. induction 1 as [|x y ? ? [Hxy _]]; simpl; congruence. Qed.

Lemma rank_labels_proper (labels : list str) (probs probs' : list Q) (top_k : Z) :
  Forall2 Qeq probs probs' ->
  rank_labels labels probs top_k = rank_labels labels probs' top_k.
Proof.
  intros Hp. unfold rank_labels. apply same_entry_labels.
  assert (Hs : Forall2 same_entry (sorted_by neg_snd (zip labels probs))
                 (sorted_by neg_snd (zip labels probs'))).
  { apply sorted_by_same. clear top_k. revert labels.
    induction Hp; intros [|lbl labels]; simpl; repeat constructor; auto. }
  unfold py_take. rewrite (Forall2_length _ _ _ Hs).
  destruct (0 <=? top_k); by apply Forall2_take.
Qed.

Lemma Qsum_proper (l l' : list Q) : Forall2 Qeq l l' -> Qsum l == Qsum l'.
Proof.
  induction 1 as [|x y ? ? Hxy _ IH]; simpl; [reflexivity|]. by rewrite Hxy, IH.
Qed.

Lemma softmax_proper (exp : Q -> Q) (logits logits' : list Q) :
  Proper (Qeq ==> Qeq) exp ->
  Forall2 Qeq logits logits' ->
  Forall2 Qeq (softmax exp logits) (softmax exp logits').
Proof.
  intros Hexp Hl. unfold softmax.
  assert (Hs : Forall2 Qeq (List.map (fun x => x - Qmax_list logits)%Q logits)
                 (List.map (fun x => x - Qmax_list logits')%Q logits')).
  { pose proof (Qmax_list_proper _ _ Hl) as Hm. revert Hm.
    generalize (Qmax_list logits) (Qmax_list logits'). intros m m' Hm.
    induction Hl as [|x y ? ? Hxy _ IH]; simpl; constructor; [|done].
    by rewrite Hxy, Hm. }
  revert Hs. generalize (List.map (fun x => x - Qmax_list logits)%Q logits)
                        (List.map (fun x => x - Qmax_list logits')%Q logits').
  clear logits logits' Hl. intros logits logits' Hl.
  assert (Ht : Qsum (List.map exp logits) == Qsum (List.map exp logits')).
  { apply Qsum_proper. clear -Hexp Hl.
    induction Hl; simpl; constructor; [by apply Hexp|done]. }
  revert Ht. generalize (Qsum (List.map exp logits)) (Qsum (List.map exp logits')).
  intros t t' Ht. induction Hl as [|x y ? ? Hxy _ IH]; simpl; constructor; [|done].
  by rewrite (Hexp _ _ Hxy), Ht.
Qed.

Section TaggerFacts.

Variable image : Type.
Variable clip_logit_per_image : image -> str -> Q.
Variable clip_image_features : image -> list Q.
Variable clip_text_features : str -> list Q.
Variable logit_scale_exp : Q.
Variable unit_norm : list Q -> list Q.
Variable exp : Q -> Q.
Variable TAG_PROMPTS : list (str * str).

Local Abbreviation tag_image := (zero_shot image clip_logit_per_image exp).
Local Abbreviation tag_embedding :=
  (zero_shot_from_embedding clip_text_features logit_scale_exp unit_norm exp).
Local Abbreviation embed := (get_embedding image clip_image_features unit_norm).



(** C5.  When the model's forward pass scores a label by the scaled
    similarity between the image's embedding and the label's normalised
    text features (its only use of the image), tagging the image and
    tagging its embedding return the same labels in the same order. *)
Theorem tagging_paths_agree
    (Hexp : Proper (Qeq ==> Qeq) exp)
    (Hmodel : forall img label,
        clip_logit_per_image img label ==
        dot (embed img) (unit_norm (clip_text_features label)) * logit_scale_exp)
    (img : image) (labels : list str) (top_k : Z) :
  tag_image img labels top_k = tag_embedding (embed img) labels top_k.
Proof.
  unfold zero_shot, zero_shot_from_embedding.
  apply rank_labels_proper, softmax_proper; [done|].
  unfold embedding_logits. induction labels as [|l labels IH]; simpl; constructor.
  - apply Hmodel.
  - exact IH.
Qed.

End TaggerFacts.


(** ** The similarity pass *)

Lemma elem_of_valid_of (embeddings : list (option (list Q))) i e :
  (i, e) ∈ valid_of embeddings <-> embeddings !! i = Some (Some e).
Proof.
  unfold valid_of. rewrite list_elem_of_omap. split.
  - intros ([k [x|]] & Hin & Hf); simpl in Hf; [|done].
    inversion Hf; subst. by apply elem_of_enumerate.
  - intros H. exists (i, Some e). split; [by apply elem_of_enumerate|done].
Qed.

Lemma omap_fst_sublist {A B} (f : nat * A -> option (nat * B)) l :
  (forall x y, f x = Some y -> fst y = fst x) ->
  sublist (List.map fst (omap f l)) (List.map fst l).
Proof.
  intros Hf. induction l as [|x r IH]; simpl; [constructor|].
  destruct (f x) as [y|] eqn:E; simpl.
  - rewrite (Hf _ _ E). by constructor.
  - by constructor.
Qed.

Lemma valid_indices_sublist (embeddings : list (option (list Q))) :
  sublist (List.map fst (valid_of embeddings)) (seq 0 (length embeddings)).
Proof.
  rewrite <- enumerate_fst. apply omap_fst_sublist.
  intros [k [x|]] y Hy; simpl in Hy; [|done]. by inversion Hy.
Qed.

Lemma valid_indices_NoDup (embeddings : list (option (list Q))) :
  NoDup (List.map fst (valid_of embeddings)).
Proof.
  eapply sublist_NoDup; [apply NoDup_seq|apply valid_indices_sublist].
Qed.

Lemma elem_of_valid_indices (embeddings : list (option (list Q))) i :
  i ∈ List.map fst (valid_of embeddings) <->
  exists e, embeddings !! i = Some (Some e).
Proof.
  rewrite map_fmap, list_elem_of_fmap. split.
  - intros ([k e] & -> & Hin). exists e. by apply elem_of_valid_of.
  - intros [e He]. exists (i, e). split; [done|by apply elem_of_valid_of].
Qed.

Lemma valid_of_lookup (embeddings : list (option (list Q))) rank i e :
  valid_of embeddings !! rank = Some (i, e) ->
  embeddings !! i = Some (Some e) /\
  List.map fst (valid_of embeddings) !! rank = Some i /\
  List.map snd (valid_of embeddings) !! rank = Some e.
Proof.
  intros H. split; [|split].
  - apply elem_of_valid_of. by eapply list_elem_of_lookup_2.
  - by rewrite map_fmap, list_lookup_fmap, H.
  - by rewrite map_fmap, list_lookup_fmap, H.
Qed.

Lemma cosine_sim_matrix_lookup embs rank e :
  embs !! rank = Some e ->
  cosine_sim_matrix embs !! rank = Some (List.map (dot e) embs).
Proof.
  intros H. unfold cosine_sim_matrix.
  by rewrite map_fmap, list_lookup_fmap, H.
Qed.

Lemma pick_similar_ok ids valid_indices i sorted_j :
  (forall j q, (j, q) ∈ sorted_j ->
               exists vj, valid_indices !! j = Some vj /\ (vj < length ids)%nat) ->
  pick_similar ids valid_indices i sorted_j
  = Ok (omap (pick_of ids valid_indices i) sorted_j).
Proof.
  induction sorted_j as [|[j q] r IH]; intros Hwf; simpl; [done|].
  destruct (Hwf j q) as (vj & Hvj & Hlt); [left|].
  unfold pick_of at 1. simpl. rewrite Hvj.
  rewrite IH by (intros; apply (Hwf j0 q0); by right).
  destruct (decide (vj <> i)); [|done].
  apply lookup_lt_is_Some_2 in Hlt as [x Hx]. by rewrite Hx.
Qed.

Section RankerFacts.

Variable TOP_SIMILAR : Z.

Local Abbreviation phase2' := (phase2_assign_similar TOP_SIMILAR).
Local Abbreviation neighbours' := (neighbours TOP_SIMILAR).

Lemma assign_loop_ok ids valid_indices sim (want : nat -> list str) todo :
  forall items,
  NoDup (List.map snd todo) ->
  (forall rank i, (rank, i) ∈ todo ->
     (i < length items)%nat /\
     exists row, sim !! rank = Some row /\
                 similar_for TOP_SIMILAR ids valid_indices row i = Ok (want i)) ->
  exists out,
    assign_loop TOP_SIMILAR ids valid_indices sim todo items = Ok out /\
    length out = length items /\
    forall k, out !! k = if decide (k ∈ List.map snd todo)
                         then set_similar_items (want k) <$> items !! k
                         else items !! k.
Proof.
  induction todo as [|[rank i] rest IH]; intros items Hnd Hwf; simpl.
  - exists items. repeat split.
  - apply NoDup_cons in Hnd as [Hni Hnd].
    destruct (Hwf rank i) as (Hlt & row & Hrow & Hsim); [left|].
    rewrite Hrow. rewrite Hsim. simpl.
    apply lookup_lt_is_Some_2 in Hlt as [it Hit]. rewrite Hit.
    destruct (IH (<[i := set_similar_items (want i) it]> items) Hnd)
      as (out & Hout & Hlen & Hlook).
    { intros r j Hin. rewrite length_insert. apply Hwf. by right. }
    exists out. split; [done|]. split; [by rewrite Hlen, length_insert|].
    intros k. rewrite Hlook.
    destruct (decide (k = i)) as [->|Hne].
    + rewrite decide_False by done. rewrite decide_True by left.
      rewrite list_lookup_insert_eq by (by eapply lookup_lt_Some). by rewrite Hit.
    + rewrite list_lookup_insert_ne by done.
      destruct (decide (k ∈ List.map snd rest)) as [Hin|Hnin].
      * rewrite decide_True by (by right). done.
      * rewrite decide_False; [done|]. intros [?|?]%elem_of_cons; done.
Qed.

Lemma similar_for_ok ids embeddings i e :
  length ids = length embeddings ->
  similar_for TOP_SIMILAR ids (List.map fst (valid_of embeddings))
    (List.map (dot e) (List.map snd (valid_of embeddings))) i
  = Ok (neighbours' ids embeddings i e).
Proof.
  intros Hids. unfold similar_for, neighbours.
  rewrite pick_similar_ok; [done|].
  intros j q Hin. rewrite sorted_by_Permutation in Hin.
  apply elem_of_enumerate in Hin. apply lookup_lt_Some in Hin.
  rewrite !length_map in Hin.
  destruct (lookup_lt_is_Some_2 (List.map fst (valid_of embeddings)) j)
    as [vj Hvj]; [by rewrite length_map|].
  exists vj. split; [done|].
  apply list_elem_of_lookup_2, elem_of_valid_indices in Hvj as [e' He'].
  rewrite Hids. by eapply lookup_lt_Some.
Qed.

(** The result of the pass, position by position. *)
Lemma phase2_spec items embeddings ids :
  length items = length embeddings ->
  length ids = length embeddings ->
  exists out,
    phase2' items embeddings ids = Ok out /\
    length out = length items /\
    forall k, out !! k =
      match embeddings !! k with
      | Some (Some e) =>
          if (length (valid_of embeddings) <? 2)%nat then items !! k
          else set_similar_items (neighbours' ids embeddings k e) <$> items !! k
      | _ => items !! k
      end.
Proof.
  intros Hitems Hids. unfold phase2_assign_similar.
  destruct (length (valid_of embeddings) <? 2)%nat eqn:Hfew.
  { exists items. repeat split. intros k. by destruct (embeddings !! k) as [[e|]|]. }
  set (want := fun k => match embeddings !! k with
                        | Some (Some e) => neighbours' ids embeddings k e
                        | _ => []
                        end).
  destruct (assign_loop_ok ids (List.map fst (valid_of embeddings))
              (cosine_sim_matrix (List.map snd (valid_of embeddings))) want
              (enumerate (List.map fst (valid_of embeddings))) items)
    as (out & Hout & Hlen & Hlook).
  - rewrite enumerate_snd. apply valid_indices_NoDup.
  - intros rank i Hin. apply elem_of_enumerate in Hin.
    rewrite map_fmap, list_lookup_fmap in Hin.
    destruct (valid_of embeddings !! rank) as [[i' e]|] eqn:Hv; [|done].
    simpl in Hin. inversion Hin; subst i'.
    destruct (valid_of_lookup _ _ _ _ Hv) as (Hemb & _ & Hsnd).
    split; [rewrite Hitems; by eapply lookup_lt_Some|].
    exists (List.map (dot e) (List.map snd (valid_of embeddings))).
    split; [by apply cosine_sim_matrix_lookup|].
    unfold want. rewrite Hemb. by apply similar_for_ok.
  - exists out. split; [done|]. split; [done|].
    intros k. rewrite Hlook, enumerate_snd.
    destruct (decide (k ∈ List.map fst (valid_of embeddings))) as [Hin|Hnin].
    + apply elem_of_valid_indices in Hin as [e He]. unfold want. by rewrite He.
    + destruct (embeddings !! k) as [[e|]|] eqn:He; [|done..].
      exfalso. apply Hnin, elem_of_valid_indices. eauto.
Qed.


Lemma neighbours_elem ids embeddings i e x :
  x ∈ neighbours' ids embeddings i e ->
  exists j e', j <> i /\ embeddings !! j = Some (Some e') /\ ids !! j = Some x.
Proof.
  unfold neighbours. intros Hx. apply py_take_subseteq in Hx.
  apply list_elem_of_omap in Hx as ([j q] & _ & Hpick).
  unfold pick_of in Hpick. simpl in Hpick.
  destruct (List.map fst (valid_of embeddings) !! j) as [vj|] eqn:Hvj; [|done].
  destruct (decide (vj <> i)); [|done].
  apply list_elem_of_lookup_2, elem_of_valid_indices in Hvj as [e' He'].
  by exists vj, e'.
Qed.

Lemma omap_pick_enumerate ids i vi : forall pre (row : list Q),
  length row = length vi ->
  omap (pick_of ids (pre ++ vi) i) (zip (seq (length pre) (length row)) row)
  = omap (fun vj => if decide (vj <> i) then ids !! vj else None) vi.
Proof.
  induction vi as [|v vi IH]; intros pre [|q row] Hlen; simpl in *; try done.
  unfold pick_of at 1. simpl.
  rewrite lookup_app_r, Nat.sub_diag by done. simpl.
  specialize (IH (pre ++ [v]) row). rewrite length_app in IH. simpl in IH.
  rewrite Nat.add_1_r, <- app_assoc in IH. simpl in IH.
  destruct (if decide (v <> i) then ids !! v else None);
    [f_equal|]; apply IH; lia.
Qed.

Lemma omap_pick_length (ids : list str) (i : nat) (vi : list nat) :
  NoDup vi ->
  (forall v, v ∈ vi -> (v < length ids)%nat) ->
  length (omap (fun vj => if decide (vj <> i) then ids !! vj else None) vi)
  = (length vi - (if decide (i ∈ vi) then 1 else 0))%nat.
Proof.
  induction vi as [|v vi IH]; intros Hnd Hlt; [done|].
  apply NoDup_cons in Hnd as [Hnin Hnd].
  assert (Hlt' : forall v', v' ∈ vi -> (v' < length ids)%nat)
    by (intros v' H; apply Hlt; by right).
  specialize (IH Hnd Hlt').
  rewrite omap_cons_case.
  destruct (decide (v <> i)) as [Hne|Heq].
  - destruct (lookup_lt_is_Some_2 ids v) as [x Hx]; [apply Hlt; by left|].
    rewrite Hx. cbn [length]. rewrite IH.
    destruct (decide (i ∈ vi)) as [Hin|Hni].
    + rewrite decide_True by (by right).
      destruct vi; [by apply elem_of_nil in Hin|simpl; lia].
    + rewrite decide_False; [lia|]. intros [?|?]%elem_of_cons; congruence.
  - apply dec_stable in Heq. subst v. rewrite IH.
    rewrite decide_False by done. rewrite decide_True by left.
    cbn [length]. lia.
Qed.

Lemma neighbours_length (n : nat) ids embeddings i e :
  TOP_SIMILAR = Z.of_nat n ->
  length ids = length embeddings ->
  embeddings !! i = Some (Some e) ->
  length (neighbours' ids embeddings i e)
  = (n `min` (length (valid_of embeddings) - 1))%nat.
Proof.
  intros -> Hids Hi. unfold neighbours. rewrite py_take_nat, length_take.
  f_equal.
  rewrite (Permutation_length
             (omap_Permutation _ _ _ (sorted_by_Permutation neg_snd _))).
  unfold enumerate.
  rewrite (omap_pick_enumerate ids i (List.map fst (valid_of embeddings)) [])
    by (by rewrite !length_map).
  rewrite omap_pick_length.
  - rewrite decide_True by (apply elem_of_valid_indices; eauto).
    by rewrite length_map.
  - apply valid_indices_NoDup.
  - intros v [e' He']%elem_of_valid_indices. rewrite Hids.
    by eapply lookup_lt_Some.
Qed.


(** C4 (amended).  The list the ranker assigns to the item at position
    [i] holds only ids of other positions that have an embedding; so it
    is free of the item's own id whenever no other embedded item carries
    that same id. *)
Theorem similar_items_exclude_own_position
    (items : list item) (embeddings : list (option (list Q))) (ids : list str)
    (out : list item) (i : nat) (e : list Q) (it' : item) :
  length items = length embeddings ->
  length ids = length embeddings ->
  (2 <= length (valid_of embeddings))%nat ->
  phase2' items embeddings ids = Ok out ->
  embeddings !! i = Some (Some e) ->
  out !! i = Some it' ->
  exists l,
    similar_items it' = Some l /\
    (forall x, x ∈ l ->
       exists j e', j <> i /\ embeddings !! j = Some (Some e') /\
                    ids !! j = Some x) /\
    (forall own,
       ids !! i = Some own ->
       (forall j e', j <> i -> embeddings !! j = Some (Some e') ->
                     ids !! j <> Some own) ->
       own ∉ l).
Proof.
  intros Hitems Hids Hmany Hrun Hi Hout.
  destruct (phase2_spec items embeddings ids Hitems Hids)
    as (out' & Hrun' & _ & Hlook).
  rewrite Hrun in Hrun'. inversion Hrun'; subst out'. clear Hrun'.
  rewrite Hlook, Hi in Hout.
  apply Nat.ltb_ge in Hmany. rewrite Hmany in Hout.
  destruct (items !! i) as [it|]; [|done]. simpl in Hout.
  inversion Hout; subst it'. simpl.
  exists (neighbours' ids embeddings i e). split; [done|]. split.
  - intros x Hx. by apply neighbours_elem in Hx.
  - intros own Hown Huniq Hin.
    apply neighbours_elem in Hin as (j & e' & Hne & Hj & Hid).
    by apply (Huniq j e').
Qed.


End RankerFacts.


(** ** Manifest resolver: evaluation *)

(** C2 (evaluation at the failing inputs).  A manifest whose [thumbnail]
    is a plain URI string, and one whose first sequence is not an object,
    make [extract_image_url] raise [AttributeError], which its [except]
    clause does not list; a thumbnail whose [@id] is a number makes it
    return that number instead of a string. *)
Theorem extract_image_url_escapes (py_repr : json -> str) :
  extract_image_url py_repr Demo.string_thumbnail_manifest = Raise AttributeError /\
  extract_image_url py_repr Demo.scalar_sequence_manifest = Raise AttributeError /\
  extract_image_url py_repr Demo.numeric_id_manifest = Ok (JNum 7).
Proof. repeat split; reflexivity. Qed.

(** On a manifest of the documented shapes the resolver does return the
    resource identifier. *)
Lemma extract_image_url_primary (py_repr : json -> str) :
  extract_image_url py_repr (Demo.manifest_doc "https://example.org/a.jpg")
  = Ok (JStr (u "https://example.org/a.jpg")).
Proof. reflexivity. Qed.

(** ** Controller and caches *)

Section PipelineFacts.

Variable lower : str -> str.
Variable is_word : N -> bool.
Variable is_space : N -> bool.
Variable py_repr : json -> str.
Variable image : Type.
Variable clip_logit_per_image : image -> str -> Q.
Variable clip_image_features : image -> list Q.
Variable clip_text_features : str -> list Q.
Variable logit_scale_exp : Q.
Variable unit_norm : list Q -> list Q.
Variable exp : Q -> Q.
Variable http_get_json : str -> option json.
Variable http_get_image : json -> option image.
Variable TAG_PROMPTS : list (str * str).
Variable TOP_TAGS : Z.
Variable TOP_SIMILAR : Z.

Local Abbreviation slug := (slugify lower is_word is_space).
Local Abbreviation fetch_manifest' :=
  (fetch_manifest lower is_word is_space http_get_json).
Local Abbreviation tag_embedding :=
  (zero_shot_from_embedding clip_text_features logit_scale_exp unit_norm exp).
Local Abbreviation tag_image := (zero_shot image clip_logit_per_image exp).
Local Abbreviation label_of := (prompt_to_label TAG_PROMPTS).
Local Abbreviation process_item' :=
  (process_item lower is_word is_space py_repr image clip_logit_per_image
     clip_image_features clip_text_features logit_scale_exp unit_norm exp
     http_get_json http_get_image TAG_PROMPTS TOP_TAGS).
Local Abbreviation phase1' :=
  (phase1_fetch_and_tag lower is_word is_space py_repr image
     clip_logit_per_image clip_image_features clip_text_features
     logit_scale_exp unit_norm exp http_get_json http_get_image TAG_PROMPTS
     TOP_TAGS).

Lemma fetch_manifest_emb_files url w :
  emb_files (snd (fetch_manifest' url w)) = emb_files w.
Proof.
  unfold fetch_manifest.
  destruct (manifest_files w !! _) as [[doc|]|]; simpl; try done;
    destruct (http_get_json url); done.
Qed.

(** The item after [item["id"] = slugify(item["title"])]. *)
Lemma process_item_id force it w it' emb w' :
  process_item' force it w = (Ok (it', emb), w') ->
  id it' = Some (slug (title it)) /\ title it' = title it /\
  manifest it' = manifest it.
Proof.
  unfold process_item, load_embedding. intros H.
  destruct (emb_files w !! _) as [cached|].
  - destruct (force || _); inversion H; subst; done.
  - destruct (fetch_manifest' (manifest (set_id _ it)) w) as [m w1].
    destruct (falsy_manifest m); [inversion H; subst; done|].
    destruct (extract_image_url _ _) as [url|e]; [|done].
    destruct (negb (truthy url)); [inversion H; subst; done|].
    unfold fetch_image in H.
    destruct (http_get_image url); inversion H; subst; done.
Qed.

(** C9.  The id given to an item is [slugify] of its title, [slugify] is
    the composition lowercase / drop the characters outside word
    characters, whitespace and hyphen / trim and collapse each run of
    whitespace or underscores into one hyphen / keep 80 characters, and
    so the id holds no whitespace, only word characters and hyphens, and
    at most 80 characters. *)
Theorem slug_determinism (Hhyphen : is_space HYPHEN = false) (text : str) :
  slug text
    = take 80 (collapse is_space false
                 (strip is_space (strip_specials is_word is_space (lower text)))) /\
  (forall c, c ∈ slug text ->
             is_space c = false /\ (is_word c = true \/ c = HYPHEN)) /\
  (length (slug text) <= 80)%nat /\
  (forall force it w it' emb w',
      title it = text ->
      process_item' force it w = (Ok (it', emb), w') ->
      id it' = Some (slug text)).
Proof.
  split; [reflexivity|]. split; [|split].
  - intros c Hc. destruct (slugify_elem _ _ _ _ _ Hc) as [->|(Hw & Hs & _)].
    + split; [exact Hhyphen | by right].
    + split; [exact Hs | by left].
  - apply slugify_length.
  - intros force it w it' emb w' <- H.
    by destruct (process_item_id _ _ _ _ _ _ H) as (? & _).
Qed.


(** *** The manifest cache *)

Lemma py_last_tail {A} (k : nat) (l tail : list A) :
  last_chars k l tail -> py_last k l = tail.
Proof.
  intros (head & -> & [Hk|[-> Hk]]); unfold py_last.
  - rewrite length_app, Hk.
    replace (length head + k - k)%nat with (length head + 0)%nat by lia.
    by rewrite drop_app_add.
  - simpl. by replace (length tail - k)%nat with 0%nat by lia.
Qed.

(** C10.  The manifest cache entry is addressed by the slug of the last
    60 characters of the URI alone (of the whole URI when it is shorter):
    whatever precedes them plays no part.  When the last 60 characters of
    two URIs have the same slug and the first URI has just been fetched
    from the network, asking for the second one returns the first one's
    document from the cache and makes no request. *)
Theorem manifest_cache_key_collision (url1 url2 tail1 tail2 : str) (w : world)
    (doc1 : json) :
  last_chars 60 url1 tail1 ->
  last_chars 60 url2 tail2 ->
  slug tail1 = slug tail2 ->
  (forall d, manifest_files w !! slug tail1 <> Some (Readable d)) ->
  http_get_json url1 = Some doc1 ->
  exists w1,
    fetch_manifest' url1 w = (Some doc1, w1) /\
    log w1 = log w ++ [NetManifest url1] /\
    manifest_files w1 = <[slug tail1 := Readable doc1]> (manifest_files w) /\
    emb_files w1 = emb_files w /\
    fetch_manifest' url2 w1 = (Some doc1, w1).
Proof.
  intros Ht1 Ht2 Hkey Hmiss Hnet.
  apply py_last_tail in Ht1, Ht2.
  exists (write_manifest (slug tail1) doc1 (emit (NetManifest url1) w)).
  assert (Hfirst : fetch_manifest' url1 w
                   = (Some doc1, write_manifest (slug tail1) doc1
                                   (emit (NetManifest url1) w))).
  { unfold fetch_manifest. rewrite Ht1.
    destruct (manifest_files w !! _) as [[d|]|] eqn:E; rewrite ?Hnet; try done.
    by destruct (Hmiss d). }
  split; [exact Hfirst|]. split; [done|]. split; [done|]. split; [done|].
  unfold fetch_manifest. rewrite Ht2, <- Hkey. simpl.
  by rewrite lookup_insert_eq.
Qed.

(** *** Items whose embedding is cached *)

Lemma process_item_cached force it w e :
  load_embedding (slug (title it)) w = Some e ->
  process_item' force it w =
    (Ok (if retag force it
         then set_visual_tags
                (List.map label_of (tag_embedding e (prompts TAG_PROMPTS) TOP_TAGS))
                (set_id (slug (title it)) it)
         else set_id (slug (title it)) it,
         Some e),
     emit (if retag force it then TagFromEmbedding (slug (title it))
           else CachedSkip (slug (title it))) w).
Proof.
  intros H. unfold process_item, retag. rewrite H. simpl.
  by destruct (force || _).
Qed.

Lemma phase1_cached force items : forall w,
  Forall (fun it => is_Some (load_embedding (slug (title it)) w)) items ->
  phase1' force items w =
    (Ok (List.map (fun it =>
           if retag force it
           then set_visual_tags
                  (List.map label_of
                     (tag_embedding (default [] (load_embedding (slug (title it)) w))
                        (prompts TAG_PROMPTS) TOP_TAGS))
                  (set_id (slug (title it)) it)
           else set_id (slug (title it)) it) items,
         List.map (fun it => load_embedding (slug (title it)) w) items),
     World (emb_files w) (manifest_files w)
       (log w ++ List.map (fun it =>
                   if retag force it then TagFromEmbedding (slug (title it))
                   else CachedSkip (slug (title it))) items)).
Proof.
  induction items as [|it rest IH]; intros w Hall; simpl.
  - rewrite app_nil_r. by destruct w.
  - inversion Hall as [|? ? [e He] Hrest]; subst.
    rewrite (process_item_cached _ _ _ _ He).
    rewrite IH by exact Hrest. simpl.
    rewrite He. simpl. by rewrite <- app_assoc.
Qed.



(** *** Items that cannot be fetched *)

(** C6 (amended).  An item without cached embedding whose manifest
    cannot be had, whose manifest resolves to no URL, or whose image
    cannot be fetched, gets [None] as its embedding and nothing is
    written to the embedding cache; the loop goes on with the next item
    from the state this one left; the item keeps the [visual_tags] and
    [similar_items] it came with (none, for a fresh record), also through
    the similarity pass.  Its [image_url] is set: to the empty string in
    the first case, to what the resolver returned in the other two. *)
Theorem fetch_failure_tolerated (force : bool) (it : item) (rest : list item)
    (w : world) (it_f : item) (w_f : world) :
  load_embedding (slug (title it)) w = None ->
  (let m := fst (fetch_manifest' (manifest it) w) in
   let w1 := snd (fetch_manifest' (manifest it) w) in
   let it0 := set_id (slug (title it)) it in
   (falsy_manifest m = true /\ it_f = set_image_url (JStr []) it0 /\ w_f = w1) \/
   (exists doc url,
       m = Some doc /\ truthy doc = true /\
       extract_image_url py_repr doc = Ok url /\
       it_f = set_image_url url it0 /\
       ((truthy url = false /\ w_f = w1) \/
        (truthy url = true /\ http_get_image url = None /\
         w_f = emit (NetImage url) w1)))) ->
  process_item' force it w = (Ok (it_f, None), w_f) /\
  emb_files w_f = emb_files w /\
  visual_tags it_f = visual_tags it /\
  similar_items it_f = similar_items it /\
  phase1' force (it :: rest) w =
    match phase1' force rest w_f with
    | (Ok (items', embeddings), w') => (Ok (it_f :: items', None :: embeddings), w')
    | (Raise e, w') => (Raise e, w')
    end /\
  (forall items' embeddings ids out i,
      length items' = length embeddings ->
      length ids = length embeddings ->
      phase2_assign_similar TOP_SIMILAR items' embeddings ids = Ok out ->
      embeddings !! i = Some None ->
      out !! i = items' !! i).
Proof.
  intros Hmiss Hfail.
  assert (Hstep : process_item' force it w = (Ok (it_f, None), w_f)).
  { unfold process_item. rewrite Hmiss. simpl in *.
    destruct (fetch_manifest' (manifest it) w) as [m w1] eqn:Hm. simpl in Hfail.
    destruct Hfail as [(Hfalsy & -> & ->)|(doc & url & -> & Hdoc & Hurl & -> & Hcase)].
    - by rewrite Hfalsy.
    - simpl. rewrite Hdoc. simpl. rewrite Hurl.
      destruct Hcase as [(Hu & ->)|(Hu & Himg & ->)]; rewrite Hu; simpl; [done|].
      unfold fetch_image. by rewrite Himg. }
  split; [exact Hstep|]. split; [|split; [|split; [|split]]].
  - pose proof (fetch_manifest_emb_files (manifest it) w) as Hemb.
    simpl in Hfail.
    destruct Hfail as [(_ & _ & ->)|(doc & url & _ & _ & _ & _ & [(_ & ->)|(_ & _ & ->)])];
      exact Hemb.
  - simpl in Hfail.
    destruct Hfail as [(_ & -> & _)|(doc & url & _ & _ & _ & -> & _)]; done.
  - simpl in Hfail.
    destruct Hfail as [(_ & -> & _)|(doc & url & _ & _ & _ & -> & _)]; done.
  - simpl. by rewrite Hstep.
  - intros items' embeddings ids out i Hitems Hids Hrun Hi.
    destruct (phase2_spec TOP_SIMILAR items' embeddings ids Hitems Hids)
      as (out' & Hrun' & _ & Hlook).
    rewrite Hrun in Hrun'. inversion Hrun'; subst out'.
    by rewrite Hlook, Hi.
Qed.


(** *** Restarting on the artifact of a previous run *)

Local Abbreviation enrich' :=
  (enrich lower is_word is_space py_repr image clip_logit_per_image
     clip_image_features clip_text_features logit_scale_exp unit_norm exp
     http_get_json http_get_image TAG_PROMPTS TOP_TAGS TOP_SIMILAR).

(** What one iteration guarantees: entries of the embedding cache are
    never overwritten, and an item that comes out with an embedding has
    its tags and its embedding under its id in the cache. *)
Lemma process_item_post force it w r w' :
  process_item' force it w = (r, w') ->
  (forall k v, emb_files w !! k = Some v -> emb_files w' !! k = Some v) /\
  (forall it' e, r = Ok (it', Some e) ->
     is_Some (visual_tags it') /\
     emb_files w' !! slug (title it) = Some e).
Proof.
  unfold process_item, load_embedding. intros H.
  destruct (emb_files w !! slug (title it)) as [cached|] eqn:Hc.
  - destruct (force || negb (bool_decide (is_Some (visual_tags (set_id _ it)))))
      eqn:Hre; inversion H; subst; simpl; (split; [done|]);
      intros it' e [= <- <-]; simpl; split; try done.
    apply orb_false_iff in Hre as [_ Hre]. apply negb_false_iff in Hre.
    by apply bool_decide_eq_true in Hre.
  - pose proof (fetch_manifest_emb_files (manifest it) w) as Hem.
    simpl in H.
    destruct (fetch_manifest' (manifest it) w) as [m w1]. simpl in Hem.
    destruct (falsy_manifest m).
    { inversion H; subst. split; [by rewrite Hem|]. by intros ? ? [=]. }
    destruct (extract_image_url _ _) as [url|ex].
    2: { inversion H; subst. split; [by rewrite Hem|]. by intros ? ? [=]. }
    destruct (negb (truthy url)).
    { inversion H; subst. split; [by rewrite Hem|]. by intros ? ? [=]. }
    unfold fetch_image in H. destruct (http_get_image url) as [img|].
    2: { inversion H; subst. simpl. split; [by rewrite Hem|]. by intros ? ? [=]. }
    inversion H; subst. simpl. rewrite Hem. split.
    + intros k v Hk. rewrite lookup_insert_ne; [done|congruence].
    + intros it' e [= <- <-]. simpl. split; [done|apply lookup_insert_eq].
Qed.

Lemma phase1_post force items : forall w items' embeddings w',
  phase1' force items w = (Ok (items', embeddings), w') ->
  (forall k v, emb_files w !! k = Some v -> emb_files w' !! k = Some v) /\
  Forall2 (item_ok lower is_word is_space w') items' embeddings.
Proof.
  induction items as [|it rest IH]; intros w items' embeddings w' H; simpl in H.
  - inversion H; subst. split; [done|constructor].
  - destruct (process_item' force it w) as [[[it1 emb]|ex] w1] eqn:Hstep; [|done].
    destruct (phase1' force rest w1) as [[[items1 embs1]|ex] w2] eqn:Hrest; [|done].
    inversion H; subst. clear H.
    destruct (process_item_post _ _ _ _ _ Hstep) as [Hmono1 Hpost].
    destruct (IH _ _ _ _ Hrest) as [Hmono2 Hall].
    destruct (process_item_id _ _ _ _ _ _ Hstep) as (Hid & Htitle & _).
    split; [by auto|]. constructor; [|done].
    split; [by rewrite Htitle|].
    intros e ->. destruct (Hpost it1 e eq_refl) as [Htags Hemb].
    split; [done|]. rewrite Htitle. by apply Hmono2.
Qed.

Lemma item_ids_ok items :
  Forall (fun it => id it = Some (slug (title it))) items ->
  item_ids items = Ok (List.map (fun it => slug (title it)) items).
Proof.
  induction 1 as [|it rest Hit _ IH]; simpl; [done|]. by rewrite Hit, IH.
Qed.


Lemma map_fixed {A} (f : A -> A) (l : list A) :
  Forall (fun x => f x = x) l -> List.map f l = l.
Proof. induction 1; simpl; congruence. Qed.

(** C3 (amended).  When a run without the force flag left no item
    without embedding, running the pipeline again on the artifact it
    wrote, with the caches it left, writes the same artifact, skips every
    item as cached, makes no request, computes no tag and leaves both
    caches as they were. *)
Theorem restart_is_idempotent (items : list item) (w : world)
    (items1 : list item) (embeddings : list (option (list Q)))
    (out1 : list item) (w1 : world) :
  phase1' false items w = (Ok (items1, embeddings), w1) ->
  Forall is_Some embeddings ->
  enrich' false items w = (Ok out1, w1) ->
  exists w2,
    enrich' false out1 w1 = (Ok out1, w2) /\
    emb_files w2 = emb_files w1 /\
    manifest_files w2 = manifest_files w1 /\
    log w2 = log w1 ++ List.map (fun it => CachedSkip (slug (title it))) out1.
Proof.
  intros Hp1 Hall Hrun.
  destruct (phase1_post _ _ _ _ _ _ Hp1) as [_ Hok].
  assert (Hlen1 : length items1 = length embeddings) by (by eapply Forall2_length).
  assert (Hids : item_ids items1 = Ok (List.map (fun it => slug (title it)) items1)).
  { apply item_ids_ok. clear -Hok. induction Hok as [|? ? ? ? [? _]]; by constructor. }
  set (ids := List.map (fun it => slug (title it)) items1) in *.
  assert (Hlen2 : length ids = length embeddings)
    by (unfold ids; by rewrite length_map).
  unfold enrich in Hrun. rewrite Hp1, Hids in Hrun. simpl in Hrun.
  destruct (phase2_spec TOP_SIMILAR items1 embeddings ids Hlen1 Hlen2)
    as (out & Hout & Hlen3 & Hlook).
  rewrite Hout in Hrun. inversion Hrun; subst out. clear Hrun.
  (* every item of the artifact: same title, id and tags, embedding cached *)
  assert (Hart : forall k o, out1 !! k = Some o ->
            exists it1 e, items1 !! k = Some it1 /\ embeddings !! k = Some (Some e) /\
              title o = title it1 /\ id o = Some (slug (title o)) /\
              is_Some (visual_tags o) /\
              emb_files w1 !! slug (title o) = Some e /\
              (o = it1 \/ exists l, o = set_similar_items l it1)).
  { intros k o Ho.
    destruct (lookup_lt_is_Some_2 items1 k) as [it1 Hit1];
      [rewrite <- Hlen3; by eapply lookup_lt_Some|].
    destruct (Forall2_lookup_l _ _ _ _ _ Hok Hit1) as (oe & Hoe & Hid & Hemb).
    destruct oe as [e|];
      [|by apply (proj1 (Forall_lookup _ _) Hall) in Hoe as [? ?]].
    destruct (Hemb e eq_refl) as [Htags Hcache].
    exists it1, e. rewrite Hlook, Hoe, Hit1 in Ho.
    destruct (length (valid_of embeddings) <? 2)%nat; simpl in Ho;
      inversion Ho; subst o; simpl; repeat split; eauto. }
  (* the second loop only skips *)
  assert (Hcached : Forall (fun it => is_Some (load_embedding (slug (title it)) w1)) out1).
  { apply Forall_lookup. intros k o Ho.
    destruct (Hart k o Ho) as (? & e & _ & _ & _ & _ & _ & Hc & _).
    unfold load_embedding. by rewrite Hc. }
  pose proof (phase1_cached false out1 w1 Hcached) as Hp2.
  rewrite (map_fixed _ out1) in Hp2.
  2: { apply Forall_lookup. intros k o Ho.
       destruct (Hart k o Ho) as (? & e & _ & _ & _ & Hid & Htags & _).
       unfold retag. simpl. rewrite bool_decide_eq_true_2 by done. simpl.
       destruct o; simpl in *. by rewrite Hid. }
  assert (Hembs : List.map (fun it => load_embedding (slug (title it)) w1) out1
                  = embeddings).
  { apply list_eq. intros k. rewrite map_fmap, list_lookup_fmap.
    destruct (out1 !! k) as [o|] eqn:Ho; simpl.
    - destruct (Hart k o Ho) as (? & e & _ & He & _ & _ & _ & Hc & _).
      unfold load_embedding. by rewrite Hc, He.
    - symmetry. apply lookup_ge_None. apply lookup_ge_None in Ho. lia. }
  rewrite Hembs in Hp2.
  assert (Hids2 : item_ids out1 = Ok ids).
  { rewrite item_ids_ok.
    - f_equal. unfold ids. apply list_eq. intros k.
      rewrite !map_fmap, !list_lookup_fmap.
      destruct (out1 !! k) as [o|] eqn:Ho; simpl.
      + destruct (Hart k o Ho) as (it1 & ? & -> & _ & -> & _). done.
      + apply lookup_ge_None in Ho. rewrite Hlen3 in Ho.
        by rewrite (proj2 (lookup_ge_None _ _) Ho).
    - apply Forall_lookup. intros k o Ho.
      by destruct (Hart k o Ho) as (? & ? & _ & _ & _ & ? & _). }
  destruct (phase2_spec TOP_SIMILAR out1 embeddings ids) as (out2 & Hout2 & Hlen4 & Hlook2);
    [lia|done|].
  assert (out2 = out1) as ->.
  { apply list_eq. intros k. rewrite Hlook2, Hlook.
    destruct (embeddings !! k) as [[e|]|]; [|done..].
    destruct (length (valid_of embeddings) <? 2)%nat; [done|].
    by destruct (items1 !! k). }
  eexists. unfold enrich. rewrite Hp2, Hids2. simpl. rewrite Hout2.
  split; [reflexivity|]. simpl. repeat split.
  f_equal. apply List.map_ext_in. intros o Ho.
  apply list_elem_of_In, list_elem_of_lookup in Ho as [k Ho].
  destruct (Hart k o Ho) as (? & e & _ & _ & _ & _ & Htags & _).
  unfold retag. simpl. by rewrite bool_decide_eq_true_2.
Qed.

End PipelineFacts.

Lemma slug_determinism_witness :
  Ascii.is_space HYPHEN = false /\
  (forall c, c ∈ Ascii.slug (u "Broad Street Station, 1905") ->
             Ascii.is_space c = false /\ (Ascii.is_word c = true \/ c = HYPHEN)) /\
  Ascii.slug (u "Broad Street Station, 1905") = u "broad-street-station-1905".
Proof.
  split; [reflexivity|]. split; [|reflexivity].
  apply (slug_determinism Ascii.lower Ascii.is_word Ascii.is_space
           Demo.py_repr Demo.image Demo.clip_logit_per_image
           Demo.clip_image_features Demo.clip_text_features
           Demo.logit_scale_exp Demo.unit_norm Demo.exp Demo.http_get_json
           Demo.http_get_image Demo.TAG_PROMPTS Demo.TOP_TAGS
           eq_refl (u "Broad Street Station, 1905")).
Defined.

(** C7 (amended).  The pass leaves an item without embedding exactly as
    it was, changes nothing at all when fewer than two embeddings are
    valid, and otherwise gives every item that has an embedding the
    ranked list of its neighbours, of length [min N (valid - 1)], hence
    at most [N]; this list is non-empty when the configured count [N] is
    at least one. *)
Theorem similar_items_shape (N : nat) (items : list item)
    (embeddings : list (option (list Q))) (ids : list str) :
  length items = length embeddings ->
  length ids = length embeddings ->
  exists out,
    phase2_assign_similar (Z.of_nat N) items embeddings ids = Ok out /\
    length out = length items /\
    (forall i, embeddings !! i = Some None -> out !! i = items !! i) /\
    ((length (valid_of embeddings) < 2)%nat -> out = items) /\
    (forall i e it,
       (2 <= length (valid_of embeddings))%nat ->
       embeddings !! i = Some (Some e) ->
       items !! i = Some it ->
       exists l,
         out !! i = Some (set_similar_items l it) /\
         l = neighbours (Z.of_nat N) ids embeddings i e /\
         length l = (N `min` (length (valid_of embeddings) - 1))%nat /\
         (length l <= N)%nat /\
         ((1 <= N)%nat -> l <> [])).
Proof.
  intros Hitems Hids.
  destruct (phase2_spec (Z.of_nat N) items embeddings ids Hitems Hids)
    as (out & Hrun & Hlen & Hlook).
  exists out. split; [done|]. split; [done|]. split; [|split].
  - intros i Hi. by rewrite Hlook, Hi.
  - intros Hfew. apply list_eq. intros k. rewrite Hlook.
    apply Nat.ltb_lt in Hfew. rewrite Hfew. by destruct (embeddings !! k) as [[?|]|].
  - intros i e it Hmany Hi Hit.
    exists (neighbours (Z.of_nat N) ids embeddings i e).
    assert (Hl := neighbours_length (Z.of_nat N) N ids embeddings i e
                    eq_refl Hids Hi).
    split; [|split; [done|split; [done|split; [lia|]]]].
    + rewrite Hlook, Hi, Hit. apply Nat.ltb_ge in Hmany. by rewrite Hmany.
    + intros HN Hnil. rewrite Hnil in Hl. simpl in Hl. lia.
Qed.

(** * Further properties of the code *)

(** ** The manifest resolver, path by path *)

Lemma resolve_thumbnail_raises (manifest : json) (e : exn) :
  resolve_thumbnail manifest = Raise e -> e = AttributeError.
Proof.
  unfold resolve_thumbnail. destruct manifest; simpl; try congruence.
  destruct (truthy (default JNull (assoc (u "thumbnail") kv))) eqn:Ht; [|done].
  destruct (default JNull (assoc (u "thumbnail") kv)) as [| | | |l|t]; simpl;
    try congruence.
  destruct l as [|v l]; [done|]. simpl. destruct v; simpl; congruence.
Qed.

Lemma resolver_raise_kind (py_repr : json -> str) (manifest : json) (e : exn) :
  extract_image_url py_repr manifest = Raise e -> e = AttributeError.
Proof.
  unfold extract_image_url.
  destruct (resolve_primary py_repr manifest) as [[v|]|e'].
  - done.
  - apply resolve_thumbnail_raises.
  - destruct (caught e') eqn:Hc.
    + apply resolve_thumbnail_raises.
    + intros [= <-]. by destruct e'.
Qed.

(** X1.  Whatever the manifest, the only exception the resolver lets out is
    [AttributeError]: index, key and type errors of the nested lookups are
    absorbed, and the thumbnail fallback cannot raise them. *)
Theorem extract_image_url_raises_only_attribute_error
    (py_repr : json -> str) (manifest : json) (e : exn) :
  extract_image_url py_repr manifest = Raise e -> e = AttributeError.
Proof. apply resolver_raise_kind. Qed.

(** X2.  The first image of the first canvas of the first sequence decides:
    when its resource has a non-empty [@id], that value is returned,
    whatever else the manifest holds (a thumbnail included). *)
Theorem extract_image_url_prefers_resource_id
    (py_repr : json -> str) (kv s0 c0 i0 r : list (str * json))
    (seqs canvases images : list json) (url : json) :
  assoc (u "sequences") kv = Some (JArr (JObj s0 :: seqs)) ->
  assoc (u "canvases") s0 = Some (JArr (JObj c0 :: canvases)) ->
  assoc (u "images") c0 = Some (JArr (JObj i0 :: images)) ->
  assoc (u "resource") i0 = Some (JObj r) ->
  assoc (u "@id") r = Some url ->
  truthy url = true ->
  extract_image_url py_repr (JObj kv) = Ok url.
Proof.
  intros Hs Hc Hi Hr Hu Ht. unfold extract_image_url, resolve_primary.
  simpl. rewrite Hs. simpl. rewrite Hc. simpl. rewrite Hi. simpl.
  rewrite Hr. simpl. rewrite Hu. simpl. by rewrite Ht.
Qed.

(** X3.  When that resource has no usable [@id] but a [service] object whose
    [@id] is a non-empty string, the URL is the service id followed by the
    fixed size, rotation and quality suffix. *)
Theorem extract_image_url_service_fallback
    (py_repr : json -> str) (kv s0 c0 i0 r svc : list (str * json))
    (seqs canvases images : list json) (svc_id : str) :
  assoc (u "sequences") kv = Some (JArr (JObj s0 :: seqs)) ->
  assoc (u "canvases") s0 = Some (JArr (JObj c0 :: canvases)) ->
  assoc (u "images") c0 = Some (JArr (JObj i0 :: images)) ->
  assoc (u "resource") i0 = Some (JObj r) ->
  truthy (default (JStr []) (assoc (u "@id") r)) = false ->
  assoc (u "service") r = Some (JObj svc) ->
  assoc (u "@id") svc = Some (JStr svc_id) ->
  svc_id <> [] ->
  extract_image_url py_repr (JObj kv)
  = Ok (JStr (svc_id ++ u "/full/800,/0/default.jpg")).
Proof.
  intros Hs Hc Hi Hr Hu Hsvc Hid Hne. unfold extract_image_url, resolve_primary.
  simpl. rewrite Hs. simpl. rewrite Hc. simpl. rewrite Hi. simpl.
  rewrite Hr. simpl. rewrite Hu. rewrite Hsvc. simpl. rewrite Hid. simpl.
  by destruct svc_id.
Qed.

(** X4.  A manifest without (or with an empty) [sequences] is resolved from
    [thumbnail]: nothing there gives the empty string, an object gives its
    [@id] (the empty string when it has none), and a list that starts with
    an object gives that object's [@id]. *)
Theorem extract_image_url_thumbnail_fallback
    (py_repr : json -> str) (kv : list (str * json)) :
  truthy (default (JArr []) (assoc (u "sequences") kv)) = false ->
  (truthy (default JNull (assoc (u "thumbnail") kv)) = false ->
   extract_image_url py_repr (JObj kv) = Ok (JStr [])) /\
  (forall t, assoc (u "thumbnail") kv = Some (JObj t) ->
   extract_image_url py_repr (JObj kv)
   = Ok (default (JStr []) (assoc (u "@id") t))) /\
  (forall t rest, assoc (u "thumbnail") kv = Some (JArr (JObj t :: rest)) ->
   extract_image_url py_repr (JObj kv)
   = Ok (default (JStr []) (assoc (u "@id") t))).
Proof.
  intros Hs. unfold extract_image_url, resolve_primary, resolve_thumbnail.
  simpl. rewrite Hs. simpl. split; [|split].
  - intros Ht. by rewrite Ht.
  - intros t Ht. rewrite Ht. simpl. by destruct t.
  - intros t rest Ht. rewrite Ht. done.
Qed.

(** X5.  A first sequence without canvases, or a first canvas without
    images, makes the nested lookup raise [IndexError]; the resolver absorbs
    it and answers from the thumbnail object. *)
Theorem extract_image_url_empty_lists_fall_back
    (py_repr : json -> str) (kv s0 t : list (str * json)) (seqs : list json) :
  assoc (u "sequences") kv = Some (JArr (JObj s0 :: seqs)) ->
  (default (JArr []) (assoc (u "canvases") s0) = JArr [] \/
   exists c0 canvases,
     assoc (u "canvases") s0 = Some (JArr (JObj c0 :: canvases)) /\
     default (JArr []) (assoc (u "images") c0) = JArr []) ->
  assoc (u "thumbnail") kv = Some (JObj t) ->
  extract_image_url py_repr (JObj kv) = Ok (default (JStr []) (assoc (u "@id") t)).
Proof.
  intros Hs Hempty Ht. unfold extract_image_url, resolve_primary, resolve_thumbnail.
  simpl. rewrite Hs. simpl.
  destruct Hempty as [Hc|(c0 & canvases & Hc & Hi)].
  - rewrite Hc. simpl. rewrite Ht. simpl. by destruct t.
  - rewrite Hc. simpl. rewrite Hi. simpl. rewrite Ht. simpl. by destruct t.
Qed.

(** ** The manifest cache and the controller, further *)

Section CacheFacts.

Variable lower : str -> str.
Variable is_word : N -> bool.
Variable is_space : N -> bool.
Variable py_repr : json -> str.
Variable image : Type.
Variable clip_logit_per_image : image -> str -> Q.
Variable clip_image_features : image -> list Q.
Variable clip_text_features : str -> list Q.
Variable logit_scale_exp : Q.
Variable unit_norm : list Q -> list Q.
Variable exp : Q -> Q.
Variable http_get_json : str -> option json.
Variable http_get_image : json -> option image.
Variable TAG_PROMPTS : list (str * str).
Variable TOP_TAGS : Z.
Variable TOP_SIMILAR : Z.

Local Abbreviation slug := (slugify lower is_word is_space).
Local Abbreviation fetch_manifest' :=
  (fetch_manifest lower is_word is_space http_get_json).
Local Abbreviation process_item' :=
  (process_item lower is_word is_space py_repr image clip_logit_per_image
     clip_image_features clip_text_features logit_scale_exp unit_norm exp
     http_get_json http_get_image TAG_PROMPTS TOP_TAGS).
Local Abbreviation phase1' :=
  (phase1_fetch_and_tag lower is_word is_space py_repr image
     clip_logit_per_image clip_image_features clip_text_features
     logit_scale_exp unit_norm exp http_get_json http_get_image TAG_PROMPTS
     TOP_TAGS).
Local Abbreviation enrich' :=
  (enrich lower is_word is_space py_repr image clip_logit_per_image
     clip_image_features clip_text_features logit_scale_exp unit_norm exp
     http_get_json http_get_image TAG_PROMPTS TOP_TAGS TOP_SIMILAR).

(** X6.  A manifest that was obtained once is served from the cache from
    then on: the same call again returns the same document, sends nothing
    and changes nothing. *)
Theorem fetch_manifest_read_through (url : str) (w w1 : world) (doc : json) :
  fetch_manifest' url w = (Some doc, w1) ->
  fetch_manifest' url w1 = (Some doc, w1).
Proof.
  unfold fetch_manifest.
  destruct (manifest_files w !! slug (py_last 60 url)) as [[d|]|] eqn:E.
  - intros [= <- <-]. by rewrite E.
  - destruct (http_get_json url) as [data|]; [|done].
    intros [= <- <-]. simpl. by rewrite lookup_insert_eq.
  - destruct (http_get_json url) as [data|]; [|done].
    intros [= <- <-]. simpl. by rewrite lookup_insert_eq.
Qed.

(** X7.  The [None] of the [except] branch is returned exactly when the
    cache holds no readable file for the key and the request fails.  Such
    a failure leaves no trace in the cache: one request was sent, the
    cache files are those from before, and asking again sends the request
    again.  A document that is JSON [null] - which the caller sees as
    [None] as well - is no such failure: it is in the cache afterwards,
    and asking again returns it without a request. *)
Theorem fetch_manifest_failure_not_cached (url : str) (w w1 : world)
    (m : option json) :
  fetch_manifest' url w = (m, w1) ->
  (m = None <->
   (forall d, manifest_files w !! slug (py_last 60 url) <> Some (Readable d)) /\
   http_get_json url = None) /\
  (m = None ->
   w1 = emit (NetManifest url) w /\
   manifest_files w1 = manifest_files w /\
   fetch_manifest' url w1 = (None, emit (NetManifest url) w1)) /\
  (m = Some JNull ->
   manifest_files w1 !! slug (py_last 60 url) = Some (Readable JNull) /\
   fetch_manifest' url w1 = (Some JNull, w1)).
Proof.
  unfold fetch_manifest.
  destruct (manifest_files w !! slug (py_last 60 url)) as [[d|]|] eqn:E.
  - intros [= <- <-]. rewrite E. split; [|split].
    + split; [done|]. intros [Hno _]. by destruct (Hno d).
    + done.
    + by intros [= ->].
  - destruct (http_get_json url) as [data|] eqn:Hnet; intros [= <- <-]; simpl.
    + rewrite lookup_insert_eq. split; [|split].
      * split; [done|]. by intros [_ ?].
      * done.
      * by intros [= ->].
    + rewrite ?E, ?Hnet. split; [|split]; [|done|done].
      split; [|done]. intros _. split; [|done]. intros d; rewrite ?E; done.
  - destruct (http_get_json url) as [data|] eqn:Hnet; intros [= <- <-]; simpl.
    + rewrite lookup_insert_eq. split; [|split].
      * split; [done|]. by intros [_ ?].
      * done.
      * by intros [= ->].
    + rewrite ?E, ?Hnet. split; [|split]; [|done|done].
      split; [|done]. intros _. split; [|done]. intros d; rewrite ?E; done.
Qed.

(** X8.  A cache file that cannot be parsed counts as a miss: the manifest
    is requested, and a successful answer replaces the unreadable file. *)
Theorem fetch_manifest_repairs_corrupt_file (url : str) (w : world) (doc : json) :
  manifest_files w !! slug (py_last 60 url) = Some Corrupt ->
  http_get_json url = Some doc ->
  exists w1,
    fetch_manifest' url w = (Some doc, w1) /\
    log w1 = log w ++ [NetManifest url] /\
    manifest_files w1 !! slug (py_last 60 url) = Some (Readable doc).
Proof.
  intros Hc Hnet. unfold fetch_manifest. rewrite Hc, Hnet.
  eexists. split; [done|]. simpl. split; [done|]. apply lookup_insert_eq.
Qed.

Lemma fetch_manifest_footprint (url : str) (w : world) :
  emb_files (snd (fetch_manifest' url w)) = emb_files w /\
  (forall k, k <> slug (py_last 60 url) ->
     manifest_files (snd (fetch_manifest' url w)) !! k = manifest_files w !! k) /\
  (log (snd (fetch_manifest' url w)) = log w \/
   log (snd (fetch_manifest' url w)) = log w ++ [NetManifest url]) /\
  (forall d, manifest_files w !! slug (py_last 60 url) = Some (Readable d) ->
     fetch_manifest' url w = (Some d, w)) /\
  (forall d k, manifest_files w !! k = Some (Readable d) ->
     manifest_files (snd (fetch_manifest' url w)) !! k = Some (Readable d)).
Proof.
  assert (Hmiss : forall data,
            (forall d, manifest_files w !! slug (py_last 60 url) <> Some (Readable d)) ->
            forall d k, manifest_files w !! k = Some (Readable d) ->
              <[slug (py_last 60 url) := Readable data]> (manifest_files w) !! k
              = Some (Readable d)).
  { intros data Hno d k Hk. rewrite lookup_insert_ne; [done|].
    intros <-. by apply (Hno d). }
  assert (Hhit : forall data,
            (forall d, manifest_files w !! slug (py_last 60 url) <> Some (Readable d)) ->
            emb_files w = emb_files w /\
            (forall k, k <> slug (py_last 60 url) ->
               <[slug (py_last 60 url) := Readable data]> (manifest_files w) !! k
               = manifest_files w !! k) /\
            (log w ++ [NetManifest url] = log w \/
             log w ++ [NetManifest url] = log w ++ [NetManifest url]) /\
            (forall d, manifest_files w !! slug (py_last 60 url) = Some (Readable d) ->
               (Some data, write_manifest (slug (py_last 60 url)) data (emit (NetManifest url) w))
               = (Some d, w)) /\
            (forall d k, manifest_files w !! k = Some (Readable d) ->
               <[slug (py_last 60 url) := Readable data]> (manifest_files w) !! k
               = Some (Readable d))).
  { intros data Hno. split; [done|]. split.
    { intros k Hk. by rewrite lookup_insert_ne. }
    split; [by right|]. split; [intros d Hd; by destruct (Hno d)|].
    by apply Hmiss. }
  assert (Hfail :
            (forall d, manifest_files w !! slug (py_last 60 url) <> Some (Readable d)) ->
            emb_files w = emb_files w /\
            (forall k, k <> slug (py_last 60 url) -> manifest_files w !! k = manifest_files w !! k) /\
            (log w ++ [NetManifest url] = log w \/
             log w ++ [NetManifest url] = log w ++ [NetManifest url]) /\
            (forall d, manifest_files w !! slug (py_last 60 url) = Some (Readable d) ->
               (@None json, emit (NetManifest url) w) = (Some d, w)) /\
            (forall d k, manifest_files w !! k = Some (Readable d) ->
               manifest_files w !! k = Some (Readable d))).
  { intros Hno. split; [done|]. split; [done|]. split; [by right|].
    split; [intros d Hd; by destruct (Hno d)|done]. }
  unfold fetch_manifest.
  destruct (manifest_files w !! slug (py_last 60 url)) as [[d|]|] eqn:E.
  - simpl. split; [done|]. split; [done|]. split; [by left|].
    split; [by intros d' [= ->]|done].
  - destruct (http_get_json url) as [data|]; simpl.
    + by apply Hhit.
    + by apply Hfail.
  - destruct (http_get_json url) as [data|]; simpl.
    + by apply Hhit.
    + by apply Hfail.
Qed.

(** X9.  What a call can touch: never the embedding cache, no manifest entry
    but its own, at most one request; a readable entry is returned as it is,
    with no request and no change at all. *)
Theorem fetch_manifest_frame (url : str) (w : world) :
  emb_files (snd (fetch_manifest' url w)) = emb_files w /\
  (forall k, k <> slug (py_last 60 url) ->
     manifest_files (snd (fetch_manifest' url w)) !! k = manifest_files w !! k) /\
  (log (snd (fetch_manifest' url w)) = log w \/
   log (snd (fetch_manifest' url w)) = log w ++ [NetManifest url]) /\
  (forall d, manifest_files w !! slug (py_last 60 url) = Some (Readable d) ->
     fetch_manifest' url w = (Some d, w)) /\
  (forall d k, manifest_files w !! k = Some (Readable d) ->
     manifest_files (snd (fetch_manifest' url w)) !! k = Some (Readable d)).
Proof. apply fetch_manifest_footprint. Qed.

End CacheFacts.

Section ControllerFacts.

Variable lower : str -> str.
Variable is_word : N -> bool.
Variable is_space : N -> bool.
Variable py_repr : json -> str.
Variable image : Type.
Variable clip_logit_per_image : image -> str -> Q.
Variable clip_image_features : image -> list Q.
Variable clip_text_features : str -> list Q.
Variable logit_scale_exp : Q.
Variable unit_norm : list Q -> list Q.
Variable exp : Q -> Q.
Variable http_get_json : str -> option json.
Variable http_get_image : json -> option image.
Variable TAG_PROMPTS : list (str * str).
Variable TOP_TAGS : Z.
Variable TOP_SIMILAR : Z.

Local Abbreviation slug := (slugify lower is_word is_space).
Local Abbreviation fetch_manifest' :=
  (fetch_manifest lower is_word is_space http_get_json).
Local Abbreviation tag_image := (zero_shot image clip_logit_per_image exp).
Local Abbreviation embed := (get_embedding image clip_image_features unit_norm).
Local Abbreviation label_of := (prompt_to_label TAG_PROMPTS).
Local Abbreviation process_item' :=
  (process_item lower is_word is_space py_repr image clip_logit_per_image
     clip_image_features clip_text_features logit_scale_exp unit_norm exp
     http_get_json http_get_image TAG_PROMPTS TOP_TAGS).
Local Abbreviation phase1' :=
  (phase1_fetch_and_tag lower is_word is_space py_repr image
     clip_logit_per_image clip_image_features clip_text_features
     logit_scale_exp unit_norm exp http_get_json http_get_image TAG_PROMPTS
     TOP_TAGS).
Local Abbreviation enrich' :=
  (enrich lower is_word is_space py_repr image clip_logit_per_image
     clip_image_features clip_text_features logit_scale_exp unit_norm exp
     http_get_json http_get_image TAG_PROMPTS TOP_TAGS TOP_SIMILAR).

(** One iteration, outcome by outcome. *)
Lemma process_item_cases force it w r w' :
  process_item' force it w = (r, w') ->
  let it0 := set_id (slug (title it)) it in
  let m := fst (fetch_manifest' (manifest it) w) in
  let w1 := snd (fetch_manifest' (manifest it) w) in
  (exists e ev it', load_embedding (slug (title it)) w = Some e /\
     w' = emit ev w /\ r = Ok (it', Some e) /\
     similar_items it' = similar_items it /\ is_Some (visual_tags it')) \/
  (load_embedding (slug (title it)) w = None /\
   ((falsy_manifest m = true /\ r = Ok (set_image_url (JStr []) it0, None) /\ w' = w1) \/
    (exists doc, m = Some doc /\ truthy doc = true /\
       ((exists e, extract_image_url py_repr doc = Raise e /\ r = Raise e /\ w' = w1) \/
        (exists url, extract_image_url py_repr doc = Ok url /\
           ((truthy url = false /\ r = Ok (set_image_url url it0, None) /\ w' = w1) \/
            (truthy url = true /\ http_get_image url = None /\
             r = Ok (set_image_url url it0, None) /\ w' = emit (NetImage url) w1) \/
            (exists img, truthy url = true /\ http_get_image url = Some img /\
               r = Ok (set_visual_tags
                         (List.map label_of (tag_image img (prompts TAG_PROMPTS) TOP_TAGS))
                         (set_image_url url it0), Some (embed img)) /\
               w' = emit (SaveEmbedding (slug (title it)))
                      (save_embedding (slug (title it)) (embed img)
                         (emit (Embed (slug (title it)))
                            (emit (TagFromImage (slug (title it)))
                               (emit (NetImage url) w1))))))))))).
Proof.
  unfold process_item. intros H. simpl.
  destruct (load_embedding (slug (title it)) w) as [cached|] eqn:Hc.
  - left. exists cached.
    destruct (force || negb (bool_decide (is_Some (visual_tags (set_id (slug (title it)) it)))))
      eqn:Hre; inversion H; subst; eexists _, _; repeat split; eauto.
    apply orb_false_iff in Hre as [_ Hre]. apply negb_false_iff in Hre.
    by apply bool_decide_eq_true in Hre.
  - right. split; [done|]. simpl in H.
    destruct (fetch_manifest' (manifest it) w) as [m w1]. simpl.
    destruct (falsy_manifest m) eqn:Hf.
    { left. by inversion H. }
    right. destruct m as [doc|]; [|done]. simpl in Hf, H.
    apply negb_false_iff in Hf. exists doc. split; [done|]. split; [done|].
    destruct (extract_image_url py_repr doc) as [url|e].
    2: { left. exists e. by inversion H. }
    right. exists url. split; [done|].
    destruct (truthy url) eqn:Hu; simpl in H.
    2: { left. by inversion H. }
    right. unfold fetch_image in H. destruct (http_get_image url) as [img|].
    + right. exists img. by inversion H.
    + left. by inversion H.
Qed.

Lemma process_item_grows force it w r w' :
  process_item' force it w = (r, w') ->
  (forall k v, emb_files w !! k = Some v -> emb_files w' !! k = Some v) /\
  (forall k d, manifest_files w !! k = Some (Readable d) ->
               manifest_files w' !! k = Some (Readable d)) /\
  (exists evs, log w' = log w ++ evs) /\
  (forall e, r = Raise e -> e = AttributeError).
Proof.
  intros H.
  pose proof H as Hpost. apply process_item_post in Hpost as [Hemb _].
  split; [exact Hemb|].
  pose proof (fetch_manifest_footprint lower is_word is_space http_get_json
                (manifest it) w) as (_ & _ & Hlog & _ & Hman).
  destruct (process_item_cases _ _ _ _ _ H)
    as [(e & ev & it' & _ & -> & -> & _)|(_ & Hcase)].
  - simpl. split; [done|]. split; [by eexists|done].
  - assert (Hlog1 : exists evs, log (snd (fetch_manifest' (manifest it) w))
                                = log w ++ evs).
    { destruct Hlog as [->| ->]; [exists []; by rewrite app_nil_r|by eexists]. }
    destruct Hlog1 as [evs Hevs].
    destruct Hcase as [(_ & -> & ->)|(doc & _ & _ &
        [(e & He & -> & ->)|(url & _ &
           [(_ & -> & ->)|[(_ & _ & -> & ->)|(img & _ & _ & -> & ->)]])])];
      simpl; (split; [intros k d; apply Hman|]); (split; [|try done]).
    + by eexists.
    + by eexists.
    + intros e' [= <-]. by eapply resolver_raise_kind.
    + by eexists.
    + rewrite Hevs, <- app_assoc. by eexists.
    + rewrite Hevs, <- !app_assoc. by eexists.
Qed.

Lemma phase1_grows force items : forall w r w',
  phase1' force items w = (r, w') ->
  (forall k v, emb_files w !! k = Some v -> emb_files w' !! k = Some v) /\
  (forall k d, manifest_files w !! k = Some (Readable d) ->
               manifest_files w' !! k = Some (Readable d)) /\
  (exists evs, log w' = log w ++ evs) /\
  (forall e, r = Raise e -> e = AttributeError).
Proof.
  induction items as [|it rest IH]; intros w r w' H; simpl in H.
  - inversion H; subst. repeat split; auto; [exists []; by rewrite app_nil_r|done].
  - destruct (process_item' force it w) as [r1 w1] eqn:Hstep.
    destruct (process_item_grows _ _ _ _ _ Hstep) as (He1 & Hm1 & [evs1 Hl1] & Hr1).
    destruct r1 as [[it1 emb]|ex].
    2: { inversion H; subst. split; [done|]. split; [done|].
         split; [by eexists|]. intros e [= <-]. by apply Hr1. }
    destruct (phase1' force rest w1) as [r2 w2] eqn:Hrest.
    destruct (IH _ _ _ Hrest) as (He2 & Hm2 & [evs2 Hl2] & Hr2).
    assert (w' = w2) as -> by (destruct r2 as [[? ?]|?]; by inversion H).
    split; [by auto|]. split; [by auto|]. split.
    + exists (evs1 ++ evs2). by rewrite Hl2, Hl1, app_assoc.
    + intros e ->. destruct r2 as [[? ?]|ex]; [done|].
      inversion H; subst. by apply Hr2.
Qed.

(** X10.  A run of the loop can only add to the caches and to the log: every
    embedding and every readable manifest that was cached before is still
    there, unchanged, afterwards - with the force flag as without it, and
    also when the run is cut short by an exception. *)
Theorem caches_only_grow (force : bool) (items : list item) (w w' : world)
    (r : result (list item * list (option (list Q)))) :
  phase1' force items w = (r, w') ->
  (forall k v, emb_files w !! k = Some v -> emb_files w' !! k = Some v) /\
  (forall k d, manifest_files w !! k = Some (Readable d) ->
               manifest_files w' !! k = Some (Readable d)) /\
  (exists evs, log w' = log w ++ evs).
Proof.
  intros H. destruct (phase1_grows _ _ _ _ _ H) as (? & ? & ? & _). done.
Qed.

Lemma phase1_aligned force items : forall w items' embeddings w',
  phase1' force items w = (Ok (items', embeddings), w') ->
  length embeddings = length items /\
  Forall2 (fun it it' => title it' = title it /\ manifest it' = manifest it /\
                         id it' = Some (slug (title it))) items items'.
Proof.
  induction items as [|it rest IH]; intros w items' embeddings w' H; simpl in H.
  - inversion H; subst. split; [done|constructor].
  - destruct (process_item' force it w) as [[[it1 emb]|ex] w1] eqn:Hstep; [|done].
    destruct (phase1' force rest w1) as [[[items1 embs1]|ex] w2] eqn:Hrest; [|done].
    inversion H; subst. clear H.
    destruct (IH _ _ _ _ Hrest) as [Hlen Hall].
    pose proof Hstep as Hid. apply process_item_id in Hid as (Hid & Htitle & Hman).
    split; [simpl; by rewrite Hlen|]. by constructor.
Qed.

(** X11.  The loop returns one embedding entry per item and the items in
    their order: the k-th entry of [embeddings] belongs to the k-th item,
    which has kept its title and manifest and carries the slug of its title
    as id. *)
Theorem phase1_keeps_alignment (force : bool) (items items' : list item)
    (embeddings : list (option (list Q))) (w w' : world) :
  phase1' force items w = (Ok (items', embeddings), w') ->
  length items' = length items /\
  length embeddings = length items /\
  Forall2 (fun it it' => title it' = title it /\ manifest it' = manifest it /\
                         id it' = Some (slug (title it))) items items'.
Proof.
  intros H. destruct (phase1_aligned _ _ _ _ _ _ H) as [Hlen Hall].
  split; [symmetry; by eapply Forall2_length|done].
Qed.

Lemma enrich_unfold force items w items1 embeddings w1 :
  phase1' force items w = (Ok (items1, embeddings), w1) ->
  exists out,
    enrich' force items w = (Ok out, w1) /\
    length out = length items /\
    forall k, out !! k =
      match embeddings !! k with
      | Some (Some e) =>
          if (length (valid_of embeddings) <? 2)%nat then items1 !! k
          else set_similar_items
                 (neighbours TOP_SIMILAR
                    (List.map (fun it => slug (title it)) items1) embeddings k e)
                 <$> items1 !! k
      | _ => items1 !! k
      end.
Proof.
  intros Hp1.
  destruct (phase1_aligned _ _ _ _ _ _ Hp1) as [Hlen Hall].
  pose proof (Forall2_length _ _ _ Hall) as Hlen1.
  assert (Hids : item_ids items1
                 = Ok (List.map (fun it => slugify lower is_word is_space (title it))
                         items1)).
  { apply item_ids_ok. clear -Hall.
    induction Hall as [|? ? ? ? (Ht & _ & Hid)]; constructor; [|done].
    by rewrite Ht. }
  destruct (phase2_spec TOP_SIMILAR items1 embeddings
              (List.map (fun it => slug (title it)) items1))
    as (out & Hout & Hlen3 & Hlook); [lia|rewrite length_map; lia|].
  exists out. unfold enrich. rewrite Hp1, Hids. simpl. rewrite Hout.
  split; [done|]. split; [lia|done].
Qed.


(** X13.  The artifact is the catalog, item for item: as many items, in the
    same order, each with the title and manifest it had, and each with the
    slug of its title as [id]. *)
Theorem enrich_output_is_catalog (force : bool) (items out : list item)
    (w w' : world) :
  enrich' force items w = (Ok out, w') ->
  length out = length items /\
  Forall2 (fun it o => title o = title it /\ manifest o = manifest it /\
                       id o = Some (slug (title it))) items out.
Proof.
  intros H. destruct (phase1' force items w) as [[[items1 embs]|ex] w1] eqn:Hp1.
  2: { unfold enrich in H. by rewrite Hp1 in H. }
  destruct (enrich_unfold _ _ _ _ _ _ Hp1) as (out' & Hrun & Hlen & Hlook).
  rewrite Hrun in H. inversion H; subst out' w1. clear H.
  split; [done|].
  destruct (phase1_aligned _ _ _ _ _ _ Hp1) as [_ Hall].
  apply Forall2_same_length_lookup. split; [done|].
  intros k it o Hit Ho.
  destruct (Forall2_lookup_l _ _ _ _ _ Hall Hit) as (it1 & Hit1 & Ht & Hm & Hid).
  rewrite Hlook, Hit1 in Ho.
  destruct (embs !! k) as [[e|]|]; [|by inversion Ho; subst..].
  destruct (length (valid_of embs) <? 2)%nat; by inversion Ho; subst.
Qed.

(** X14.  An item without cached embedding gets an embedding exactly when
    all three steps succeed - a non-empty manifest, a non-empty URL from the
    resolver, an image behind it; the embedding is then that of the image,
    it is in the cache under the item's id, and the item carries the URL and
    the tags computed from the image. *)
Theorem fresh_item_embedded_iff (force : bool) (it it' : item)
    (emb : option (list Q)) (w w' : world) :
  load_embedding (slug (title it)) w = None ->
  process_item' force it w = (Ok (it', emb), w') ->
  (is_Some emb <->
   exists doc url img,
     fst (fetch_manifest' (manifest it) w) = Some doc /\ truthy doc = true /\
     extract_image_url py_repr doc = Ok url /\ truthy url = true /\
     http_get_image url = Some img) /\
  (forall doc url img,
     fst (fetch_manifest' (manifest it) w) = Some doc ->
     extract_image_url py_repr doc = Ok url ->
     http_get_image url = Some img ->
     is_Some emb ->
     emb = Some (embed img) /\
     load_embedding (slug (title it)) w' = Some (embed img) /\
     image_url it' = Some url /\
     visual_tags it'
     = Some (List.map label_of (tag_image img (prompts TAG_PROMPTS) TOP_TAGS))).
Proof.
  intros Hmiss H.
  destruct (process_item_cases _ _ _ _ _ H)
    as [(e & ? & ? & He & _)|(_ & Hcase)]; [congruence|].
  simpl in Hcase.
  destruct Hcase as [(Hf & Hr & _)|(doc & Hm & Hdoc &
      [(e & _ & Hr & _)|(url & Hu &
         [(Ht & Hr & _)|[(Ht & Hi & Hr & _)|(img & Ht & Hi & Hr & ->)]])])];
    try done; inversion Hr; subst it' emb; clear Hr.
  - split.
    + split; [by intros [? ?]|]. intros (d & ? & ? & Hd & Htd & _).
      rewrite Hd in Hf. simpl in Hf. by rewrite Htd in Hf.
    + intros ? ? ? _ _ _ [? ?]. done.
  - split.
    + split; [by intros [? ?]|]. intros (d & u' & ? & Hd & _ & Hu' & Htu & _).
      congruence.
    + intros ? ? ? _ _ _ [? ?]. done.
  - split.
    + split; [by intros [? ?]|]. intros (d & u' & ? & Hd & _ & Hu' & _ & Hi').
      congruence.
    + intros ? ? ? _ _ _ [? ?]. done.
  - split.
    + split; [|by eexists]. intros _. by exists doc, url, img.
    + intros d u' i' Hd Hu' Hi' _.
      assert (d = doc) as -> by congruence. assert (u' = url) as -> by congruence.
      assert (i' = img) as -> by congruence.
      split; [done|]. split; [|done].
      unfold load_embedding. simpl. apply lookup_insert_eq.
Qed.

Lemma phase1_rel force items : forall w items1 embeddings w',
  phase1' force items w = (Ok (items1, embeddings), w') ->
  forall k it, items !! k = Some it ->
    exists it1 oe, items1 !! k = Some it1 /\ embeddings !! k = Some oe /\
      title it1 = title it /\
      similar_items it1 = similar_items it /\
      (oe = None -> visual_tags it1 = visual_tags it).
Proof.
  induction items as [|it0 rest IH]; intros w items1 embeddings w' H k it Hk;
    [done|]. simpl in H.
  destruct (process_item' force it0 w) as [[[it1 emb]|ex] w1] eqn:Hstep; [|done].
  destruct (phase1' force rest w1) as [[[items2 embs2]|ex] w2] eqn:Hrest; [|done].
  inversion H; subst. clear H. destruct k as [|k]; simpl in *.
  - inversion Hk; subst it0. exists it1, emb. split; [done|]. split; [done|].
    pose proof Hstep as Hid. apply process_item_id in Hid as (_ & Ht & _).
    split; [done|].
    destruct (process_item_cases _ _ _ _ _ Hstep)
      as [(e & ? & ? & _ & _ & Hr & Hs & _)|(_ & Hcase)].
    + inversion Hr; subst. split; [done|]. done.
    + simpl in Hcase.
      destruct Hcase as [(_ & Hr & _)|(doc & _ & _ &
          [(e & _ & Hr & _)|(url & _ &
             [(_ & Hr & _)|[(_ & _ & Hr & _)|(img & _ & _ & Hr & _)]])])];
        inversion Hr; subst; simpl; split; done.
  - by eapply IH.
Qed.

(** X15.  For a record that comes in without tags and without neighbours,
    the fields the run adds hang together: neighbours are only given to an
    item that has tags, and tags only to an item whose embedding is in the
    cache under its id. *)
Theorem fresh_item_fields_consistent (force : bool) (items out : list item)
    (w w' : world) (k : nat) (it o : item) :
  enrich' force items w = (Ok out, w') ->
  items !! k = Some it ->
  out !! k = Some o ->
  visual_tags it = None ->
  similar_items it = None ->
  (is_Some (similar_items o) -> is_Some (visual_tags o)) /\
  (is_Some (visual_tags o) -> is_Some (load_embedding (slug (title o)) w')).
Proof.
  intros H Hit Ho Hnt Hns.
  destruct (phase1' force items w) as [[[items1 embs]|ex] w1] eqn:Hp1.
  2: { unfold enrich in H. by rewrite Hp1 in H. }
  destruct (enrich_unfold _ _ _ _ _ _ Hp1) as (out' & Hrun & Hlen & Hlook).
  rewrite Hrun in H. inversion H; subst out' w1. clear H.
  destruct (phase1_rel _ _ _ _ _ _ Hp1 k it Hit)
    as (it1 & oe & Hit1 & Hoe & Ht & Hs & Hv).
  pose proof Hp1 as Hok. apply phase1_post in Hok as [_ Hok].
  destruct (Forall2_lookup_l _ _ _ _ _ Hok Hit1) as (oe' & Hoe' & _ & Hsome).
  assert (oe' = oe) as -> by congruence.
  rewrite Hlook, Hoe, Hit1 in Ho.
  destruct oe as [e|].
  - destruct (Hsome e eq_refl) as [Htags Hcache].
    assert (Hto : title o = title it1 /\ visual_tags o = visual_tags it1).
    { destruct (length (valid_of embs) <? 2)%nat; by inversion Ho; subst. }
    destruct Hto as [Hto Hvo]. rewrite Hvo, Hto. unfold load_embedding.
    rewrite Hcache. split; by eauto.
  - inversion Ho; subst o. rewrite Hs, Hns, (Hv eq_refl), Hnt.
    split; by intros [? ?].
Qed.

(** X16.  Two titles with the same slug share one cache entry: once the
    first item has its embedding, the second one is served that same
    embedding from the cache, with the same id and without any request. *)
Theorem colliding_titles_share_embedding (force : bool) (a b a' : item)
    (e : list Q) (w w1 : world) :
  process_item' force a w = (Ok (a', Some e), w1) ->
  slug (title b) = slug (title a) ->
  exists b' ev,
    process_item' force b w1 = (Ok (b', Some e), emit ev w1) /\
    is_fetch ev = false /\
    id b' = id a'.
Proof.
  intros Ha Hslug.
  pose proof Ha as Hpost. apply process_item_post in Hpost as [_ Hpost].
  destruct (Hpost a' e eq_refl) as [_ Hcache].
  pose proof Ha as Hid. apply process_item_id in Hid as (Hid & _ & _).
  assert (Hload : load_embedding (slug (title b)) w1 = Some e)
    by (unfold load_embedding; by rewrite Hslug).
  rewrite (process_item_cached lower is_word is_space py_repr image
             clip_logit_per_image clip_image_features clip_text_features
             logit_scale_exp unit_norm exp http_get_json http_get_image
             TAG_PROMPTS TOP_TAGS force b w1 e Hload).
  eexists _, _. split; [reflexivity|]. split.
  - by destruct (retag force b).
  - rewrite Hid, <- Hslug. by destruct (retag force b).
Qed.

End ControllerFacts.

(** ** The similarity pass, further *)

Lemma dot_comm (a b : list Q) : dot a b == dot b a.
Proof.
  unfold dot. revert b. induction a as [|x a IH]; intros [|y b]; simpl;
    try reflexivity.
  rewrite IH. ring.
Qed.

(** X17.  [mat @ mat.T] is a square matrix, one row and one column per
    embedding, and it is symmetric. *)
Theorem cosine_sim_matrix_square_symmetric (embeddings : list (list Q)) :
  length (cosine_sim_matrix embeddings) = length embeddings /\
  Forall (fun row => length row = length embeddings) (cosine_sim_matrix embeddings) /\
  (forall r c a b,
      embeddings !! r = Some a -> embeddings !! c = Some b ->
      exists x y,
        cosine_sim_matrix embeddings !! r ≫= (fun row => row !! c) = Some x /\
        cosine_sim_matrix embeddings !! c ≫= (fun row => row !! r) = Some y /\
        x = dot a b /\ x == y).
Proof.
  unfold cosine_sim_matrix. split; [by rewrite length_map|]. split.
  - apply Forall_forall. intros row Hrow. rewrite map_fmap in Hrow.
    apply list_elem_of_fmap in Hrow as (a & -> & _). by rewrite length_map.
  - intros r c a b Ha Hb. exists (dot a b), (dot b a).
    rewrite !map_fmap, !list_lookup_fmap, Ha, Hb. simpl.
    rewrite !list_lookup_fmap, Ha, Hb. simpl.
    repeat split. apply dot_comm.
Qed.

Lemma StronglySorted_omap {A B} (R : A -> A -> Prop) (S : B -> B -> Prop)
    (g : A -> option B) (l : list A) :
  (forall a b a' b', a ∈ l -> b ∈ l -> R a b ->
                     g a = Some a' -> g b = Some b' -> S a' b') ->
  StronglySorted R l -> StronglySorted S (omap g l).
Proof.
  intros Hg Hs. induction Hs as [|x r Hr IH Hx]; [constructor|].
  rewrite omap_cons_case.
  assert (IH' : StronglySorted S (omap g r)).
  { apply IH. intros a b a' b' Ha Hb. apply Hg; by right. }
  destruct (g x) as [x'|] eqn:Ex; [|done].
  constructor; [done|]. apply List.Forall_forall. intros y' Hy'.
  apply list_elem_of_In, list_elem_of_omap in Hy' as (y & Hy & Ey).
  apply (Hg x y); [left|by right| |done|done].
  rewrite List.Forall_forall in Hx. apply Hx. by apply list_elem_of_In.
Qed.

Lemma StronglySorted_filter_keep {A} (R : A -> A -> Prop) (P : A -> Prop)
    `{forall x, Decision (P x)} (l : list A) :
  StronglySorted R l -> StronglySorted R (filter P l).
Proof.
  induction 1 as [|x r Hr IH Hx]; [constructor|].
  rewrite filter_cons. destruct (decide (P x)); [|done].
  constructor; [done|]. apply List.Forall_forall. intros y Hy.
  apply list_elem_of_In, list_elem_of_filter in Hy as [_ Hy].
  rewrite List.Forall_forall in Hx. apply Hx. by apply list_elem_of_In.
Qed.

Lemma StronglySorted_lookup_lt {A} (R : A -> A -> Prop) (l : list A) :
  StronglySorted R l ->
  forall j j' a b, l !! j = Some a -> l !! j' = Some b -> (j < j')%nat -> R a b.
Proof.
  induction 1 as [|x r Hr IH Hx]; intros j j' a b Ha Hb Hlt; [done|].
  destruct j' as [|j']; [lia|]. simpl in Hb. destruct j as [|j]; simpl in Ha.
  - inversion Ha; subst. rewrite List.Forall_forall in Hx. apply Hx.
    apply list_elem_of_In. by eapply list_elem_of_lookup_2.
  - eapply IH; eauto. lia.
Qed.

Lemma valid_of_increasing (embeddings : list (option (list Q))) :
  StronglySorted (fun a b : nat * list Q => (fst a < fst b)%nat) (valid_of embeddings).
Proof.
  unfold valid_of.
  eapply StronglySorted_omap; [|apply enumerate_increasing].
  intros [k [x|]] [k' [x'|]] a' b' _ _ Hlt; simpl; intros [= <-] [= <-]; done.
Qed.

Lemma omap_lookup_enumerate {A} (l : list A) : forall (pre : list A) (row : list Q),
  length row = length l ->
  omap (fun jq : nat * Q => (pre ++ l) !! fst jq)
       (zip (seq (length pre) (length row)) row) = l.
Proof.
  induction l as [|x l IH]; intros pre [|q row] Hlen; simpl in *; try done.
  rewrite lookup_app_r, Nat.sub_diag by done. simpl. f_equal.
  specialize (IH (pre ++ [x]) row). rewrite length_app in IH. simpl in IH.
  rewrite Nat.add_1_r, <- app_assoc in IH. simpl in IH. apply IH. lia.
Qed.

Lemma omap_pick_filter (ids : list str) (valid : list (nat * list Q)) (i : nat)
    (l : list (nat * Q)) :
  omap (pick_of ids (List.map fst valid) i) l
  = omap (fun p : nat * list Q => ids !! fst p)
         (filter (fun p : nat * list Q => fst p <> i)
                 (omap (fun jq : nat * Q => valid !! fst jq) l)).
Proof.
  induction l as [|[j q] l IH]; [done|].
  rewrite (omap_cons_case (pick_of _ _ _)), (omap_cons_case (fun jq => valid !! fst jq)).
  unfold pick_of at 1. cbn [fst snd].
  rewrite map_fmap, list_lookup_fmap.
  destruct (valid !! j) as [[vj ej]|]; cbn [fmap option_fmap option_map fst]; [|exact IH].
  rewrite filter_cons. cbn [fst].
  destruct (decide (vj <> i)); [|exact IH].
  rewrite omap_cons_case. cbn [fst]. destruct (ids !! vj); [f_equal|]; exact IH.
Qed.

Section RankingOrder.

Variable TOP_SIMILAR : Z.

Lemma neighbours_ranked_aux (ids : list str) (embeddings : list (option (list Q)))
    (i : nat) (e : list Q) :
  exists others : list (nat * list Q),
    others ≡ₚ filter (fun p : nat * list Q => fst p <> i) (valid_of embeddings) /\
    StronglySorted (closer e) others /\
    neighbours TOP_SIMILAR ids embeddings i e
    = py_take TOP_SIMILAR (omap (fun p : nat * list Q => ids !! fst p) others).
Proof.
  set (valid := valid_of embeddings).
  set (row := List.map (dot e) (List.map snd valid)).
  set (sorted_j := sorted_by neg_snd (enumerate row)).
  set (g := fun jq : nat * Q => valid !! fst jq).
  assert (Hrowlen : length row = length valid)
    by (unfold row; by rewrite !length_map).
  assert (Hall : omap g sorted_j ≡ₚ valid).
  { unfold sorted_j. rewrite sorted_by_Permutation.
    pose proof (omap_lookup_enumerate valid [] row Hrowlen) as Hv.
    simpl in Hv. unfold enumerate, g. by rewrite Hv. }
  assert (Hsorted : StronglySorted (closer e) (omap g sorted_j)).
  { eapply StronglySorted_omap;
      [|apply (sorted_by_stable (fun q : Q => (- q)%Q)), enumerate_increasing].
    intros [j q] [j' q'] [vj ej] [vj' ej'] Ha Hb Hab Hga Hgb.
    unfold g in Hga, Hgb. simpl in Hga, Hgb.
    unfold sorted_j in Ha, Hb. rewrite sorted_by_Permutation in Ha, Hb.
    apply elem_of_enumerate in Ha, Hb.
    assert (Hq : q = dot e ej).
    { unfold row in Ha. rewrite !map_fmap, !list_lookup_fmap, Hga in Ha.
      simpl in Ha. congruence. }
    assert (Hq' : q' = dot e ej').
    { unfold row in Hb. rewrite !map_fmap, !list_lookup_fmap, Hgb in Hb.
      simpl in Hb. congruence. }
    subst q q'. unfold closer. simpl.
    destruct Hab as [Hlt|[Heq Hidx]]; simpl in *.
    - left. apply Qopp_lt_compat in Hlt. by rewrite !Qopp_involutive in Hlt.
    - right. split.
      + rewrite <- (Qopp_involutive (dot e ej)), Heq. apply Qopp_involutive.
      + apply (StronglySorted_lookup_lt _ _ (valid_of_increasing embeddings)
                 j j' (vj, ej) (vj', ej') Hga Hgb Hidx). }
  exists (filter (fun p : nat * list Q => fst p <> i) (omap g sorted_j)).
  split; [by rewrite Hall|]. split; [by apply StronglySorted_filter_keep|].
  unfold neighbours. f_equal. apply omap_pick_filter.
Qed.

(** X18.  The neighbours of an item are the other items that have an
    embedding, most similar first; two that are equally similar stay in
    catalog order; the list is cut after the configured count. *)
Theorem neighbours_most_similar_first (ids : list str)
    (embeddings : list (option (list Q))) (i : nat) (e : list Q) :
  length ids = length embeddings ->
  exists others : list (nat * list Q),
    others ≡ₚ filter (fun p : nat * list Q => fst p <> i) (valid_of embeddings) /\
    StronglySorted (closer e) others /\
    Forall (fun p => is_Some (ids !! fst p)) others /\
    neighbours TOP_SIMILAR ids embeddings i e
    = py_take TOP_SIMILAR (omap (fun p : nat * list Q => ids !! fst p) others).
Proof.
  intros Hlen.
  destruct (neighbours_ranked_aux ids embeddings i e) as (others & Hp & Hs & Hn).
  exists others. split; [done|]. split; [done|]. split; [|done].
  apply Forall_forall. intros [vj ej] Hin. rewrite Hp in Hin.
  apply list_elem_of_filter in Hin as [_ Hin]. apply elem_of_valid_of in Hin.
  apply lookup_lt_is_Some_2. rewrite Hlen. by eapply lookup_lt_Some.
Qed.

Lemma NoDup_omap_lookup (ids : list str) (ps : list (nat * list Q)) :
  NoDup ids -> NoDup (List.map fst ps) ->
  NoDup (omap (fun p : nat * list Q => ids !! fst p) ps).
Proof.
  intros Hids. induction ps as [|[j ej] ps IH]; intros Hnd; [constructor|].
  simpl in Hnd. apply NoDup_cons in Hnd as [Hj Hnd].
  rewrite omap_cons_case. simpl.
  destruct (ids !! j) as [x|] eqn:Hx; [|by apply IH].
  apply NoDup_cons. split; [|by apply IH].
  intros Hin. apply list_elem_of_omap in Hin as ([j' ej'] & Hin & Hx').
  simpl in Hx'. assert (j' = j) as -> by exact (NoDup_lookup _ _ _ _ Hids Hx' Hx).
  apply Hj. rewrite map_fmap. apply list_elem_of_fmap. by exists (j, ej').
Qed.

(** X19.  When the ids of the batch are pairwise distinct, no id occurs
    twice in a neighbour list. *)
Theorem neighbours_without_duplicates (ids : list str)
    (embeddings : list (option (list Q))) (i : nat) (e : list Q) :
  NoDup ids ->
  NoDup (neighbours TOP_SIMILAR ids embeddings i e).
Proof.
  intros Hids.
  destruct (neighbours_ranked_aux ids embeddings i e) as (others & Hp & _ & ->).
  apply (sublist_NoDup _ (omap (fun p : nat * list Q => ids !! fst p) others)).
  - apply NoDup_omap_lookup; [done|]. rewrite map_fmap, Hp, <- map_fmap.
    apply (sublist_NoDup _ (List.map fst (valid_of embeddings)));
      [apply valid_indices_NoDup|].
    rewrite !map_fmap. apply fmap_sublist, sublist_filter.
  - unfold py_take. destruct (0 <=? TOP_SIMILAR); apply sublist_take.
Qed.

(** X20.  With exactly two embeddings in the batch and a count of at least
    one, each of the two items gets the other one's id as its only
    neighbour. *)
Theorem two_embedded_items_list_each_other (n : nat) (items : list item)
    (embeddings : list (option (list Q))) (ids : list str)
    (i j : nat) (ei ej : list Q) (a b : str) (it_i it_j : item) :
  TOP_SIMILAR = Z.of_nat n -> (1 <= n)%nat ->
  length items = length embeddings ->
  length ids = length embeddings ->
  valid_of embeddings = [(i, ei); (j, ej)] ->
  ids !! i = Some a -> ids !! j = Some b ->
  items !! i = Some it_i -> items !! j = Some it_j ->
  exists out,
    phase2_assign_similar TOP_SIMILAR items embeddings ids = Ok out /\
    out !! i = Some (set_similar_items [b] it_i) /\
    out !! j = Some (set_similar_items [a] it_j).
Proof.
  intros HN Hn Hitems Hids Hvalid Ha Hb Hi Hj.
  destruct (phase2_spec TOP_SIMILAR items embeddings ids Hitems Hids)
    as (out & Hrun & _ & Hlook).
  assert (Hei : embeddings !! i = Some (Some ei))
    by (apply elem_of_valid_of; rewrite Hvalid; left).
  assert (Hej : embeddings !! j = Some (Some ej))
    by (apply elem_of_valid_of; rewrite Hvalid; right; left).
  assert (Hij : i <> j).
  { pose proof (valid_indices_NoDup embeddings) as Hnd. rewrite Hvalid in Hnd.
    simpl in Hnd. apply NoDup_cons in Hnd as [Hnd _]. intros ->. apply Hnd. left. }
  assert (Hone : forall k ek other x,
             embeddings !! k = Some (Some ek) ->
             (forall k' e', k' <> k -> embeddings !! k' = Some (Some e') -> k' = other) ->
             ids !! other = Some x ->
             neighbours TOP_SIMILAR ids embeddings k ek = [x]).
  { intros k ek other x Hk Honly Hx.
    pose proof (neighbours_length TOP_SIMILAR n ids embeddings k ek HN Hids Hk) as Hl.
    rewrite Hvalid in Hl. simpl in Hl.
    destruct (neighbours TOP_SIMILAR ids embeddings k ek) as [|y [|z l]] eqn:Hnb;
      simpl in Hl; [lia| |lia].
    assert (Hy : y ∈ neighbours TOP_SIMILAR ids embeddings k ek)
      by (rewrite Hnb; left).
    apply neighbours_elem in Hy as (k' & e' & Hne & Hk' & Hid).
    rewrite (Honly k' e' Hne Hk') in Hid. congruence. }
  assert (Hvalid_only : forall k e', embeddings !! k = Some (Some e') -> k = i \/ k = j).
  { intros k e' Hk. apply elem_of_valid_of in Hk. rewrite Hvalid in Hk.
    apply elem_of_cons in Hk as [[= -> _]|Hk]; [by left|].
    apply elem_of_cons in Hk as [[= -> _]|Hk]; [by right|].
    by apply elem_of_nil in Hk. }
  exists out. split; [done|]. rewrite !Hlook, Hei, Hej, Hi, Hj, Hvalid. simpl.
  rewrite (Hone i ei j b Hei), (Hone j ej i a Hej); try done.
  - intros k' e' Hne Hk'. destruct (Hvalid_only k' e' Hk'); congruence.
  - intros k' e' Hne Hk'. destruct (Hvalid_only k' e' Hk'); congruence.
Qed.

End RankingOrder.

(** ** The tagger, further *)

Lemma Qltb_lt (a b : Q) : Qltb a b = true <-> (a < b)%Q.
Proof.
  unfold Qltb. rewrite negb_true_iff. split.
  - intros H. apply Qnot_le_lt. intros Hle. apply Qle_bool_iff in Hle. congruence.
  - intros H. destruct (Qle_bool b a) eqn:E; [|done].
    apply Qle_bool_iff in E. by apply Qlt_not_le in H.
Qed.

Lemma Qltb_order_preserving (f : Q -> Q) (scores : list Q) (p q : Q) :
  order_preserving_on f scores -> p ∈ scores -> q ∈ scores ->
  Qltb (- f p) (- f q) = Qltb (- p) (- q).
Proof.
  intros Hf Hp Hq. apply eq_true_iff_eq. rewrite !Qltb_lt. split; intros H.
  - apply Qopp_lt_compat. apply (proj2 (Hf q p Hq Hp)). apply Qopp_lt_compat in H.
    by rewrite !Qopp_involutive in H.
  - apply Qopp_lt_compat. apply (proj1 (Hf q p Hq Hp)). apply Qopp_lt_compat in H.
    by rewrite !Qopp_involutive in H.
Qed.

Lemma insert_by_on_score (f : Q -> Q) (scores : list Q) (x : str * Q)
    (l : list (str * Q)) :
  order_preserving_on f scores ->
  snd x ∈ scores -> Forall (fun y => snd y ∈ scores) l ->
  insert_by neg_snd (on_score f x) (List.map (on_score f) l)
  = List.map (on_score f) (insert_by neg_snd x l).
Proof.
  intros Hf Hx Hl. induction Hl as [|y r Hy _ IH]; simpl; [done|].
  unfold neg_snd at 1 2. simpl.
  rewrite (Qltb_order_preserving f scores _ _ Hf Hy Hx).
  fold (neg_snd y). fold (neg_snd x).
  destruct (Qltb (neg_snd y) (neg_snd x)); simpl; [by rewrite IH|done].
Qed.

Lemma sorted_by_on_score (f : Q -> Q) (scores : list Q) (l : list (str * Q)) :
  order_preserving_on f scores ->
  Forall (fun y => snd y ∈ scores) l ->
  sorted_by neg_snd (List.map (on_score f) l)
  = List.map (on_score f) (sorted_by neg_snd l).
Proof.
  intros Hf Hl. induction Hl as [|x r Hx Hr IH]; simpl; [done|].
  rewrite IH. apply (insert_by_on_score f scores); [done|done|].
  by rewrite sorted_by_Permutation.
Qed.

Lemma zip_on_score (f : Q -> Q) (labels : list str) (scores : list Q) :
  zip labels (List.map f scores) = List.map (on_score f) (zip labels scores).
Proof.
  revert scores. induction labels as [|l labels IH]; intros [|s scores]; simpl;
    try done. by rewrite IH.
Qed.

Lemma rank_labels_order_preserving (f : Q -> Q) (labels : list str)
    (scores : list Q) (top_k : Z) :
  order_preserving_on f scores ->
  rank_labels labels (List.map f scores) top_k = rank_labels labels scores top_k.
Proof.
  intros Hf. unfold rank_labels.
  rewrite zip_on_score, (sorted_by_on_score f scores).
  - unfold py_take. rewrite length_map.
    destruct (0 <=? top_k); rewrite !map_fmap, <- fmap_take, <- list_fmap_compose;
      done.
  - done.
  - apply Forall_forall. intros [lbl x] Hin. by apply elem_of_zip_r in Hin.
Qed.

Lemma softmax_as_map (exp : Q -> Q) (logits : list Q) :
  softmax exp logits
  = List.map (fun x => (exp (x - Qmax_list logits)
                        / Qsum (List.map exp
                                  (List.map (fun x => x - Qmax_list logits)%Q logits)))%Q)
      logits.
Proof. unfold softmax. by rewrite List.map_map. Qed.

Lemma softmax_keeps_ranking (exp : Q -> Q) (labels : list str) (logits : list Q)
    (top_k : Z) :
  (forall x, (0 <= exp x)%Q) ->
  (forall x y, (x <= y)%Q -> (exp x <= exp y)%Q) ->
  distinct_kept logits (softmax exp logits) ->
  rank_labels labels (softmax exp logits) top_k = rank_labels labels logits top_k.
Proof.
  intros Hexp Hmono Hdist.
  pose proof (softmax_order_kept exp logits Hexp Hmono) as Hkept.
  rewrite softmax_as_map in Hdist, Hkept |- *.
  set (g := fun x : Q => _) in *.
  apply rank_labels_order_preserving. intros x y Hx Hy.
  apply list_elem_of_lookup_1 in Hx as [i Hi], Hy as [j Hj].
  assert (Hgi : List.map g logits !! i = Some (g x))
    by (by rewrite map_fmap, list_lookup_fmap, Hi).
  assert (Hgj : List.map g logits !! j = Some (g y))
    by (by rewrite map_fmap, list_lookup_fmap, Hj).
  split.
  - intros Hxy.
    pose proof (Hkept i j x y _ _ Hi Hj Hgi Hgj (Qlt_le_weak _ _ Hxy)) as Hle.
    apply Qle_lteq in Hle as [Hlt|Heq]; [done|].
    by destruct (Hdist i j x y _ _ Hi Hj Hgi Hgj Hxy).
  - intros Hg. destruct (Qlt_le_dec x y) as [?|Hle]; [done|].
    pose proof (Hkept j i y x _ _ Hj Hi Hgj Hgi Hle) as Hge.
    by apply Qlt_not_le in Hg.
Qed.

(** An exponential that is strictly increasing gives different
    probabilities to different scores. *)
Lemma increasing_distinct_kept (exp : Q -> Q) (logits : list Q) :
  Proper (Qeq ==> Qeq) exp ->
  (forall x, (0 <= exp x)%Q) ->
  (0 < exp 0)%Q ->
  (forall x y, (x < y)%Q -> (exp x < exp y)%Q) ->
  distinct_kept logits (softmax exp logits).
Proof.
  intros Hp Hexp H0 Hincr i j x y p q Hx Hy Hpi Hqj Hxy Heq.
  assert (Hne : logits <> []) by (intros ->; done).
  pose proof (softmax_total_pos exp logits Hp Hexp H0 Hne) as Hpos.
  rewrite (softmax_lookup exp logits i x p Hx Hpi),
    (softmax_lookup exp logits j y q Hy Hqj) in Heq.
  assert (Hlt : (exp (x - Qmax_list logits) < exp (y - Qmax_list logits))%Q).
  { apply Hincr. unfold Qminus. by apply Qplus_lt_l. }
  unfold Qdiv in Heq.
  apply (Qmult_lt_r _ _ _ (Qinv_lt_0_compat _ Hpos)) in Hlt.
  rewrite Heq in Hlt. by apply Qlt_irrefl in Hlt.
Qed.

Section TaggerOrder.

Variable image : Type.
Variable clip_logit_per_image : image -> str -> Q.
Variable clip_text_features : str -> list Q.
Variable logit_scale_exp : Q.
Variable unit_norm : list Q -> list Q.
Variable exp : Q -> Q.

Local Abbreviation tag_image := (zero_shot image clip_logit_per_image exp).
Local Abbreviation tag_embedding :=
  (zero_shot_from_embedding clip_text_features logit_scale_exp unit_norm exp).

(** X21.  As long as no two different scores of the vocabulary get the
    same probability (none falls so far below the largest that the
    exponential underflows, or rounds, into another), the softmax does
    not change the order: the tags are the first labels by descending
    score - the model's logits for an image, the scaled similarities for
    a cached embedding - with equal scores in vocabulary order.  Of the
    exponential only what holds in floating point is asked: never
    negative, weakly increasing. *)
Theorem tags_are_the_best_scoring_labels
    (Hnonneg : forall x, (0 <= exp x)%Q)
    (Hmono : forall x y, (x <= y)%Q -> (exp x <= exp y)%Q)
    (img : image) (e : list Q) (labels : list str) (top_k : Z) :
  (distinct_kept (List.map (clip_logit_per_image img) labels)
     (softmax exp (List.map (clip_logit_per_image img) labels)) ->
   tag_image img labels top_k
   = rank_labels labels (List.map (clip_logit_per_image img) labels) top_k) /\
  (distinct_kept
     (List.map (fun l => (dot e (unit_norm (clip_text_features l))
                          * logit_scale_exp)%Q) labels)
     (softmax exp
        (List.map (fun l => (dot e (unit_norm (clip_text_features l))
                             * logit_scale_exp)%Q) labels)) ->
   tag_embedding e labels top_k
   = rank_labels labels
       (List.map (fun l => (dot e (unit_norm (clip_text_features l))
                            * logit_scale_exp)%Q) labels) top_k).
Proof.
  split; intros Hdist.
  - unfold zero_shot. by apply softmax_keeps_ranking.
  - unfold zero_shot_from_embedding, embedding_logits. rewrite List.map_map.
    by apply softmax_keeps_ranking.
Qed.

(** X22.  Asking for at least as many tags as there are labels returns the
    whole vocabulary, reordered. *)
Theorem all_labels_when_count_covers_vocabulary (K : nat) (img : image)
    (e : list Q) (labels : list str) :
  (length labels <= K)%nat ->
  tag_image img labels (Z.of_nat K) ≡ₚ labels /\
  tag_embedding e labels (Z.of_nat K) ≡ₚ labels.
Proof.
  intros HK.
  assert (H : forall probs, length probs = length labels ->
                            rank_labels labels probs (Z.of_nat K) ≡ₚ labels).
  { intros probs Hlen. unfold rank_labels. rewrite py_take_nat, take_ge.
    - rewrite map_fmap, sorted_by_Permutation. rewrite fst_zip; [done|lia].
    - rewrite sorted_by_length, length_zip_with. lia. }
  split; apply H.
  - by rewrite softmax_length, length_map.
  - unfold embedding_logits. by rewrite softmax_length, !length_map.
Qed.

(** X23.  A negative count is a slice from the front that stops that many
    entries before the end: the result is the full ranking without its last
    entries. *)
Theorem negative_count_drops_from_the_end (top_k : Z) (img : image)
    (labels : list str) :
  top_k < 0 ->
  length (tag_image img labels top_k)
  = (length labels - Z.to_nat (- top_k))%nat /\
  tag_image img labels top_k
  = take (length labels - Z.to_nat (- top_k))
      (tag_image img labels (Z.of_nat (length labels))).
Proof.
  intros Hk. unfold zero_shot, rank_labels.
  set (ranked := sorted_by neg_snd _).
  assert (Hlen : length ranked = length labels).
  { unfold ranked. rewrite sorted_by_length, length_zip_with, softmax_length,
      length_map. lia. }
  rewrite py_take_nat. unfold py_take.
  destruct (0 <=? top_k) eqn:E; [apply Z.leb_le in E; lia|].
  rewrite Hlen. split.
  - rewrite length_map, length_take, Hlen. lia.
  - rewrite (take_ge ranked (length labels)) by lia.
    by rewrite !map_fmap, fmap_take.
Qed.

End TaggerOrder.

(** ** slugify, further *)

Section SlugifyMore.

Variable lower : str -> str.
Variable is_word : N -> bool.
Variable is_space : N -> bool.

Local Abbreviation slug := (slugify lower is_word is_space).

Lemma rstrip_no_space (s : str) :
  Forall (fun c => is_space c = false) s -> rstrip is_space s = s.
Proof.
  induction 1 as [|c r Hc _ IH]; simpl; [done|].
  rewrite IH. destruct r; [by rewrite Hc|done].
Qed.

Lemma lstrip_no_space (s : str) :
  Forall (fun c => is_space c = false) s -> lstrip is_space s = s.
Proof. destruct 1 as [|c r Hc _]; simpl; [done|]. by rewrite Hc. Qed.

Lemma collapse_no_sep (s : str) (b : bool) :
  Forall (fun c => is_sep is_space c = false) s -> collapse is_space b s = s.
Proof.
  intros H. revert b. induction H as [|c r Hc _ IH]; intros b; simpl; [done|].
  by rewrite Hc, IH.
Qed.

(** X24.  A string that already has the form of a slug - lowercase, made of
    word characters other than the underscore and of hyphens, without
    whitespace, at most 80 characters long - is its own slug: slugifying an
    id gives the id back. *)
Theorem slugify_fixes_slugs (s : str) :
  lower s = s ->
  Forall (fun c => (is_word c = true \/ c = HYPHEN) /\ is_space c = false /\
                   c <> UNDERSCORE) s ->
  (length s <= 80)%nat ->
  slug s = s.
Proof.
  intros Hlow Hall Hlen. unfold slugify. rewrite Hlow.
  assert (Hkeep : strip_specials is_word is_space s = s).
  { unfold strip_specials. clear -Hall.
    induction Hall as [|c r Hc _ IH]; simpl; [done|].
    assert (Hk : keep_char is_word is_space c = true).
    { destruct Hc as ([Hw| ->] & _ & _); unfold keep_char;
        [by rewrite Hw|by rewrite N.eqb_refl, orb_true_r]. }
    rewrite Hk. by rewrite IH. }
  assert (Hsp : Forall (fun c => is_space c = false) s).
  { eapply Forall_impl; [exact Hall|]. by intros c (_ & ? & _). }
  assert (Hsep : Forall (fun c => is_sep is_space c = false) s).
  { eapply Forall_impl; [exact Hall|]. intros c (_ & Hs & Hu). unfold is_sep.
    rewrite Hs. simpl. by apply N.eqb_neq. }
  rewrite Hkeep. unfold strip. rewrite lstrip_no_space, rstrip_no_space by done.
  rewrite collapse_no_sep by done. by apply take_ge.
Qed.

Lemma lstrip_all_space (s : str) :
  Forall (fun c => is_space c = true) s -> lstrip is_space s = [].
Proof. induction 1 as [|c r Hc _ IH]; simpl; [done|]. by rewrite Hc. Qed.

(** X25.  A title whose lowercase form has no word character and no hyphen -
    punctuation and blanks only, or nothing at all - gets the empty id. *)
Theorem slugify_empty_without_word_characters (text : str) :
  Forall (fun c => is_word c = false /\ c <> HYPHEN) (lower text) ->
  slug text = [].
Proof.
  intros Hall. unfold slugify.
  assert (Hsp : Forall (fun c => is_space c = true)
                  (strip_specials is_word is_space (lower text))).
  { unfold strip_specials. induction Hall as [|c r (Hw & Hh) _ IH]; simpl;
      [constructor|].
    assert (Hk : keep_char is_word is_space c = is_space c).
    { unfold keep_char. rewrite Hw. apply N.eqb_neq in Hh. rewrite Hh. simpl.
      apply orb_false_r. }
    rewrite Hk. destruct (is_space c) eqn:Hs; [by constructor|done]. }
  unfold strip. by rewrite lstrip_all_space.
Qed.

End SlugifyMore.

(** ** The tag distribution *)

Lemma count_tag_assoc (tag t : str) (d : list (str * Z)) :
  assoc t (count_tag tag d)
  = if decide (t = tag) then Some (default 0 (assoc t d) + 1) else assoc t d.
Proof.
  induction d as [|[k n] r IH]; simpl.
  - destruct (decide (tag = t)) as [->|]; [by rewrite decide_True|].
    by rewrite decide_False.
  - destruct (decide (k = tag)) as [->|Hk]; simpl.
    + destruct (decide (tag = t)) as [->|]; [by rewrite decide_True|].
      by rewrite decide_False.
    + destruct (decide (k = t)) as [->|]; [by rewrite decide_False|]. exact IH.
Qed.

Lemma count_tag_keys (tag : str) (d : list (str * Z)) :
  NoDup (List.map fst d) ->
  NoDup (List.map fst (count_tag tag d)) /\
  (forall t, t ∈ List.map fst (count_tag tag d) <-> t = tag \/ t ∈ List.map fst d) /\
  (Forall (fun kv => 0 < snd kv) d -> Forall (fun kv => 0 < snd kv) (count_tag tag d)).
Proof.
  induction d as [|[k n] r IH]; simpl; intros Hnd.
  - split; [apply NoDup_singleton|]. split; [|by repeat constructor].
    intros t. rewrite list_elem_of_singleton. split; [by left|].
    intros [?|H]; [done|by apply elem_of_nil in H].
  - apply NoDup_cons in Hnd as [Hk Hnd]. destruct (IH Hnd) as (IH1 & IH2 & IH3).
    destruct (decide (k = tag)) as [->|Hne]; simpl.
    + split; [by apply NoDup_cons|]. split.
      * intros t. rewrite elem_of_cons. tauto.
      * intros H. apply Forall_cons in H as [H1 H2]. constructor; [simpl in *; lia|done].
    + split; [|split].
      * apply NoDup_cons. split; [|done]. rewrite IH2. intros [?|?]; done.
      * intros t. rewrite !elem_of_cons, IH2. tauto.
      * intros H. apply Forall_cons in H as [H1 H2]. constructor; [done|by apply IH3].
Qed.

Lemma count_tags_fold (tags : list str) : forall d,
  counts_ok d ->
  counts_ok (fold_left (fun d tag => count_tag tag d) tags d) /\
  (forall t, default 0 (assoc t (fold_left (fun d tag => count_tag tag d) tags d))
             = default 0 (assoc t d) + occurrences t tags) /\
  (forall t, t ∈ List.map fst (fold_left (fun d tag => count_tag tag d) tags d)
             <-> t ∈ List.map fst d \/ t ∈ tags).
Proof.
  induction tags as [|tag tags IH]; intros d [Hnd Hpos]; simpl.
  - split; [done|]. split.
    + intros t. unfold occurrences. simpl. lia.
    + intros t. split; [by left|]. intros [?|H]; [done|by apply elem_of_nil in H].
  - destruct (count_tag_keys tag d Hnd) as (H1 & H2 & H3).
    destruct (IH (count_tag tag d) (conj H1 (H3 Hpos))) as (IH1 & IH2 & IH3).
    split; [done|]. split.
    + intros t. rewrite IH2, count_tag_assoc. unfold occurrences.
      rewrite filter_cons. destruct (decide (t = tag)) as [->|Hne].
      * rewrite decide_True by done. simpl. lia.
      * rewrite decide_False by congruence. lia.
    + intros t. rewrite IH3, H2, elem_of_cons. tauto.
Qed.

Lemma tag_counts_fold (items : list item) : forall d,
  counts_ok d ->
  counts_ok (fold_left count_item items d) /\
  (forall t, default 0 (assoc t (fold_left count_item items d))
             = default 0 (assoc t d) + occurrences t (all_tags items)) /\
  (forall t, t ∈ List.map fst (fold_left count_item items d)
             <-> t ∈ List.map fst d \/ t ∈ all_tags items).
Proof.
  induction items as [|it items IH]; intros d Hd; simpl.
  - split; [done|]. split.
    + intros t. unfold occurrences, all_tags. simpl. lia.
    + intros t. split; [by left|]. intros [?|H]; [done|by apply elem_of_nil in H].
  - destruct (count_tags_fold (default [] (visual_tags it)) d Hd) as (H1 & H2 & H3).
    destruct (IH (count_item d it) H1) as (IH1 & IH2 & IH3).
    split; [done|]. split.
    + intros t. rewrite IH2. unfold count_item. rewrite H2.
      unfold occurrences, all_tags. simpl. rewrite filter_app, length_app. lia.
    + intros t. rewrite IH3. unfold count_item. rewrite H3.
      unfold all_tags. simpl. rewrite elem_of_app. tauto.
Qed.

Lemma StronglySorted_fmap_snd {A} (R : nat * A -> nat * A -> Prop)
    (S : A -> A -> Prop) (l : list (nat * A)) :
  (forall a b, R a b -> S (snd a) (snd b)) ->
  StronglySorted R l -> StronglySorted S (List.map snd l).
Proof.
  intros HRS. induction 1 as [|x r Hr IH Hx]; simpl; constructor; [done|].
  apply List.Forall_forall. intros y Hy. apply List.in_map_iff in Hy as (b & <- & Hb).
  rewrite List.Forall_forall in Hx. by apply HRS, Hx.
Qed.

(** X26.  The summary counts every tag exactly: each tag that occurs in the
    catalog has one entry, whose count is the number of its occurrences over
    all items; no other tag has an entry; and the entries are printed by
    descending count, tags with the same count in the order in which they
    were first met. *)
Theorem tag_distribution_exact (items : list item) :
  NoDup (List.map fst (tag_counts_of items)) /\
  (forall t, t ∈ List.map fst (tag_counts_of items) <-> t ∈ all_tags items) /\
  (forall t n, assoc t (tag_counts_of items) = Some n ->
               n = occurrences t (all_tags items) /\ 0 < n) /\
  tag_distribution items ≡ₚ tag_counts_of items /\
  exists order : list (nat * (str * Z)),
    order ≡ₚ enumerate (tag_counts_of items) /\
    StronglySorted (fun a b => snd (snd b) < snd (snd a) \/
                               (snd (snd a) = snd (snd b) /\ (fst a < fst b)%nat))
      order /\
    tag_distribution items = List.map snd order.
Proof.
  destruct (tag_counts_fold items []) as ([Hnd Hpos] & Hcount & Hkeys).
  { split; [constructor|constructor]. }
  fold (tag_counts_of items) in Hnd, Hpos, Hcount, Hkeys.
  split; [done|]. split.
  { intros t. rewrite Hkeys. simpl. split; [|by right].
    intros [H|?]; [by apply elem_of_nil in H|done]. }
  split.
  { intros t n Hn. specialize (Hcount t). rewrite Hn in Hcount. simpl in Hcount.
    split; [lia|]. apply assoc_Some_elem in Hn.
    rewrite Forall_forall in Hpos. apply (Hpos _ Hn). }
  split; [apply sorted_by_Permutation|].
  exists (sorted_by (fun x => neg_count (snd x)) (enumerate (tag_counts_of items))).
  split; [apply sorted_by_Permutation|]. split.
  - eapply StronglySorted_weaken; [|apply sorted_by_stable, enumerate_increasing].
    intros [i [ta na]] [j [tb nb]]. unfold sorted_before, neg_count. simpl.
    intros [Hlt|[Heq Hidx]].
    + left. apply Qopp_lt_compat in Hlt. rewrite !Qopp_involutive in Hlt.
      by rewrite <- Zlt_Qlt in Hlt.
    + right. split; [|done].
      assert (H : inject_Z na == inject_Z nb).
      { rewrite <- (Qopp_involutive (inject_Z na)), Heq. apply Qopp_involutive. }
      exact (proj1 (inject_Z_injective na nb) H).
  - unfold tag_distribution. rewrite sorted_by_snd. by rewrite enumerate_snd.
Qed.

(** * The theorems at concrete inputs *)

Lemma demo_exp_pos (x : Q) : (0 < Demo.exp x)%Q.
Proof.
  unfold Demo.exp. destruct (Qle_bool 0 x) eqn:E.
  - apply Qle_bool_iff in E.
    apply (Qplus_lt_le_compat 0 1 0 x); [reflexivity|done].
  - assert (Hx : (x < 0)%Q).
    { apply Qnot_le_lt. intros H. apply Qle_bool_iff in H. congruence. }
    unfold Qdiv. rewrite Qmult_1_l. apply Qinv_lt_0_compat.
    unfold Qminus. apply (Qplus_lt_le_compat 0 1 0 (- x)); [reflexivity|].
    apply Qlt_le_weak. apply Qopp_lt_compat in Hx. exact Hx.
Qed.

Lemma demo_exp_proper : Proper (Qeq ==> Qeq) Demo.exp.
Proof.
  intros x y Hxy. unfold Demo.exp.
  assert (Hb : Qle_bool 0 x = Qle_bool 0 y).
  { destruct (Qle_bool 0 x) eqn:E, (Qle_bool 0 y) eqn:E'; try done.
    - apply Qle_bool_iff in E. rewrite Hxy in E. apply Qle_bool_iff in E. congruence.
    - apply Qle_bool_iff in E'. rewrite <- Hxy in E'. apply Qle_bool_iff in E'.
      congruence. }
  rewrite Hb. destruct (Qle_bool 0 y); by rewrite Hxy.
Qed.

Lemma demo_exp_increasing (x y : Q) : (x < y)%Q -> (Demo.exp x < Demo.exp y)%Q.
Proof.
  intros Hxy. unfold Demo.exp.
  assert (Hneg : forall z : Q, Qle_bool 0 z = false -> (1 < 1 - z)%Q).
  { intros z Ez.
    assert (Hz : (z < 0)%Q).
    { apply Qnot_le_lt. intros H. apply Qle_bool_iff in H. congruence. }
    unfold Qminus. apply (proj2 (Qplus_lt_r 0 (- z) 1)).
    by apply (Qopp_lt_compat z 0). }
  destruct (Qle_bool 0 x) eqn:Ex, (Qle_bool 0 y) eqn:Ey.
  - by apply Qplus_lt_r.
  - apply Qle_bool_iff in Ex. exfalso.
    assert (Hy : (0 <= y)%Q) by (eapply Qle_trans; [exact Ex|by apply Qlt_le_weak]).
    apply Qle_bool_iff in Hy. congruence.
  - apply Qle_bool_iff in Ey. apply Hneg in Ex.
    apply (Qlt_le_trans _ 1).
    + apply Qlt_shift_div_r.
      * by apply (Qlt_trans 0 1).
      * by rewrite Qmult_1_l.
    + apply (Qplus_le_compat 1 1 0 y); [apply Qle_refl|done].
  - apply Hneg in Ex, Ey.
    unfold Qdiv. rewrite !Qmult_1_l.
    apply -> Qinv_lt_contravar.
    + unfold Qminus. apply Qplus_lt_r. by apply Qopp_lt_compat.
    + by apply (Qlt_trans 0 1).
    + by apply (Qlt_trans 0 1).
Qed.

Lemma demo_exp_monotone (x y : Q) : (x <= y)%Q -> (Demo.exp x <= Demo.exp y)%Q.
Proof.
  intros Hxy. apply Qle_lteq in Hxy as [Hlt|Heq].
  - by apply Qlt_le_weak, demo_exp_increasing.
  - rewrite (demo_exp_proper _ _ Heq). apply Qle_refl.
Qed.

Lemma demo_exp_nonneg (x : Q) : (0 <= Demo.exp x)%Q.
Proof. apply Qlt_le_weak, demo_exp_pos. Qed.




Lemma tagging_paths_agree_witness :
  Proper (Qeq ==> Qeq) Demo.exp /\
  Demo.tag_image [1; 0]%Q (prompts Demo.TAG_PROMPTS) 4
  = Demo.tag_embedding (Demo.embed [1; 0]%Q) (prompts Demo.TAG_PROMPTS) 4.
Proof.
  split; [exact demo_exp_proper|].
  apply (tagging_paths_agree Demo.image Demo.clip_logit_per_image
           Demo.clip_image_features Demo.clip_text_features
           Demo.logit_scale_exp Demo.unit_norm Demo.exp demo_exp_proper).
  intros img label. reflexivity.
Defined.



Lemma similar_items_shape_witness :
  length [Demo.item_a; Demo.item_b] = length Demo.first_embeddings /\
  length Demo.first_ids = length Demo.first_embeddings /\
  exists out,
    phase2_assign_similar 3 [Demo.item_a; Demo.item_b] Demo.first_embeddings Demo.first_ids
      = Ok out /\
    (option_map similar_items (out !! 0%nat)) = Some (Some [u "train-b"]).
Proof.
  split; [vm_compute; reflexivity|]. split; [vm_compute; reflexivity|].
  destruct (similar_items_shape 3 [Demo.item_a; Demo.item_b] Demo.first_embeddings
              Demo.first_ids) as (out & Hrun & _).
  - vm_compute; reflexivity.
  - vm_compute; reflexivity.
  - exists out. split; [exact Hrun|].
    vm_compute in Hrun. injection Hrun as <-. vm_compute. reflexivity.
Defined.

Lemma similar_items_exclude_own_position_witness :
  phase2_assign_similar Demo.TOP_SIMILAR [Demo.item_a; Demo.item_b]
    Demo.first_embeddings Demo.first_ids
  = Ok [set_similar_items [u "train-b"] Demo.item_a;
        set_similar_items [u "train-a"] Demo.item_b] /\
  exists l,
    similar_items (set_similar_items [u "train-b"] Demo.item_a) = Some l /\
    u "train-a" ∉ l.
Proof.
  assert (Hrun : phase2_assign_similar Demo.TOP_SIMILAR [Demo.item_a; Demo.item_b]
                   Demo.first_embeddings Demo.first_ids
                 = Ok [set_similar_items [u "train-b"] Demo.item_a;
                       set_similar_items [u "train-a"] Demo.item_b])
    by (vm_compute; reflexivity).
  split; [exact Hrun|].
  destruct (similar_items_exclude_own_position Demo.TOP_SIMILAR
              [Demo.item_a; Demo.item_b] Demo.first_embeddings Demo.first_ids
              [set_similar_items [u "train-b"] Demo.item_a;
               set_similar_items [u "train-a"] Demo.item_b]
              0%nat [1; 0]%Q (set_similar_items [u "train-b"] Demo.item_a))
    as (l & Hl & _ & Hown).
  - reflexivity.
  - reflexivity.
  - vm_compute. lia.
  - exact Hrun.
  - reflexivity.
  - reflexivity.
  - exists l. split; [exact Hl|].
    apply (Hown (u "train-a")); [reflexivity|].
    intros [|[|j]] e' Hj He'; [done| |].
    + vm_compute; discriminate.
    + destruct j; discriminate He'.
Defined.


Lemma manifest_cache_key_collision_witness :
  Demo.tail_12_3 <> Demo.tail_1_23 /\
  length Demo.tail_12_3 = 60%nat /\ length Demo.tail_1_23 = 60%nat /\
  exists w1,
    fetch_manifest Ascii.lower Ascii.is_word Ascii.is_space Demo.echo_json
      (Demo.host_a ++ Demo.tail_12_3) Demo.empty_world
      = (Some (JObj [(u "@id", JStr (Demo.host_a ++ Demo.tail_12_3))]), w1) /\
    fetch_manifest Ascii.lower Ascii.is_word Ascii.is_space Demo.echo_json
      (Demo.host_b ++ Demo.tail_1_23) w1
      = (Some (JObj [(u "@id", JStr (Demo.host_a ++ Demo.tail_12_3))]), w1).
Proof.
  split; [vm_compute; discriminate|].
  split; [vm_compute; reflexivity|]. split; [vm_compute; reflexivity|].
  destruct (manifest_cache_key_collision Ascii.lower Ascii.is_word
              Ascii.is_space Demo.echo_json
              (Demo.host_a ++ Demo.tail_12_3) (Demo.host_b ++ Demo.tail_1_23)
              Demo.tail_12_3 Demo.tail_1_23 Demo.empty_world
              (JObj [(u "@id", JStr (Demo.host_a ++ Demo.tail_12_3))]))
    as (w1 & H1 & _ & _ & _ & H5).
  - exists Demo.host_a. split; [reflexivity|left; vm_compute; reflexivity].
  - exists Demo.host_b. split; [reflexivity|left; vm_compute; reflexivity].
  - vm_compute; reflexivity.
  - intros d. vm_compute. discriminate.
  - reflexivity.
  - exists w1. split; [exact H1|exact H5].
Defined.

Lemma restart_counterexample :
  (exists out1 w1 out2 w2,
     Demo.enrich false [Demo.item_a] Demo.empty_world = (Ok out1, w1) /\
     Demo.enrich false [Demo.item_a] w1 = (Ok out2, w2) /\
     out2 <> out1 /\
     log w2 = log w1 ++ [TagFromEmbedding (u "train-a")]) /\
  (exists out1 w1 out2 w2,
     Demo.enrich false [Demo.item_d] Demo.empty_world = (Ok out1, w1) /\
     Demo.enrich false out1 w1 = (Ok out2, w2) /\
     log w2 = log w1 ++ [NetManifest (manifest Demo.item_d)]).
Proof.
  split.
  - set (r1 := Demo.enrich false [Demo.item_a] Demo.empty_world).
    set (r2 := Demo.enrich false [Demo.item_a] (snd r1)).
    exists (Demo.artifact_of r1), (snd r1), (Demo.artifact_of r2), (snd r2).
    split; [vm_compute; reflexivity|]. split; [vm_compute; reflexivity|].
    split; [|vm_compute; reflexivity].
    intros H. apply (f_equal (fun l => option_map image_url (l !! 0%nat))) in H.
    vm_compute in H. discriminate H.
  - set (r1 := Demo.enrich false [Demo.item_d] Demo.empty_world).
    set (r2 := Demo.enrich false (Demo.artifact_of r1) (snd r1)).
    exists (Demo.artifact_of r1), (snd r1), (Demo.artifact_of r2), (snd r2).
    split; [vm_compute; reflexivity|]. split; [vm_compute; reflexivity|].
    vm_compute; reflexivity.
Qed.

Lemma restart_is_idempotent_witness :
  Forall is_Some Demo.first_embeddings /\
  exists w2,
    Demo.enrich false (Demo.artifact_of Demo.first_run) (snd Demo.first_run)
    = (Ok (Demo.artifact_of Demo.first_run), w2) /\
    log w2 = log (snd Demo.first_run)
             ++ List.map (fun it => CachedSkip (Ascii.slug (title it)))
                  (Demo.artifact_of Demo.first_run).
Proof.
  assert (Hall : Forall is_Some Demo.first_embeddings)
    by (repeat constructor; by eexists).
  split; [exact Hall|].
  destruct (restart_is_idempotent Ascii.lower Ascii.is_word Ascii.is_space
              Demo.py_repr Demo.image Demo.clip_logit_per_image
              Demo.clip_image_features Demo.clip_text_features
              Demo.logit_scale_exp Demo.unit_norm Demo.exp Demo.http_get_json
              Demo.http_get_image Demo.TAG_PROMPTS Demo.TOP_TAGS
              Demo.TOP_SIMILAR [Demo.item_a; Demo.item_b] Demo.empty_world
              Demo.first_items Demo.first_embeddings
              (Demo.artifact_of Demo.first_run) (snd Demo.first_run))
    as (w2 & H1 & _ & _ & H4).
  - vm_compute; reflexivity.
  - exact Hall.
  - vm_compute; reflexivity.
  - exists w2. split; [exact H1|exact H4].
Defined.

Lemma self_exclusion_counterexample :
  title Demo.item_a <> title Demo.item_a_twin /\
  exists out w' it,
    Demo.enrich false [Demo.item_a; Demo.item_a_twin] Demo.empty_world = (Ok out, w') /\
    out !! 0%nat = Some it /\
    id it = Some (u "train-a") /\
    similar_items it = Some [u "train-a"].
Proof.
  split; [vm_compute; discriminate|].
  set (r := Demo.enrich false [Demo.item_a; Demo.item_a_twin] Demo.empty_world).
  exists (Demo.artifact_of r), (snd r),
    (default Demo.item_a (Demo.artifact_of r !! 0%nat)).
  repeat split; vm_compute; reflexivity.
Qed.

Lemma fetch_failure_counterexample :
  exists out w' it,
    Demo.enrich false [Demo.item_c] Demo.empty_world = (Ok out, w') /\
    Demo.http_get_image (JStr (u "https://example.org/c.jpg")) = None /\
    load_embedding (u "train-c") w' = None /\
    out !! 0%nat = Some it /\
    image_url it = Some (JStr (u "https://example.org/c.jpg")).
Proof.
  set (r := Demo.enrich false [Demo.item_c] Demo.empty_world).
  exists (Demo.artifact_of r), (snd r),
    (default Demo.item_c (Demo.artifact_of r !! 0%nat)).
  repeat split; vm_compute; reflexivity.
Qed.

Lemma fetch_failure_tolerated_witness :
  load_embedding (Ascii.slug (title Demo.item_d)) Demo.empty_world = None /\
  Demo.process_item Demo.TOP_TAGS false Demo.item_d Demo.empty_world
  = (Ok (set_image_url (JStr []) (set_id (u "train-d") Demo.item_d), None),
     emit (NetManifest (manifest Demo.item_d)) Demo.empty_world).
Proof.
  split; [vm_compute; reflexivity|].
  apply (fetch_failure_tolerated Ascii.lower Ascii.is_word Ascii.is_space
           Demo.py_repr Demo.image Demo.clip_logit_per_image
           Demo.clip_image_features Demo.clip_text_features
           Demo.logit_scale_exp Demo.unit_norm Demo.exp Demo.http_get_json
           Demo.http_get_image Demo.TAG_PROMPTS Demo.TOP_TAGS Demo.TOP_SIMILAR
           false Demo.item_d []).
  - vm_compute; reflexivity.
  - left. vm_compute. repeat split.
Defined.

Lemma similar_items_shape_counterexample :
  phase2_assign_similar 0 [Demo.item_a; Demo.item_b] Demo.first_embeddings
    Demo.first_ids
  = Ok [set_similar_items [] Demo.item_a; set_similar_items [] Demo.item_b] /\
  exists out w' it,
    Demo.enrich_with 0 false [Demo.item_a; Demo.item_b] Demo.empty_world
      = (Ok out, w') /\
    is_Some (load_embedding (u "train-a") w') /\
    is_Some (load_embedding (u "train-b") w') /\
    out !! 0%nat = Some it /\
    similar_items it = Some [].
Proof.
  split; [vm_compute; reflexivity|].
  set (r := Demo.enrich_with 0 false [Demo.item_a; Demo.item_b] Demo.empty_world).
  exists (Demo.artifact_of r), (snd r),
    (default Demo.item_a (Demo.artifact_of r !! 0%nat)).
  split; [vm_compute; reflexivity|].
  split; [vm_compute; by eexists|]. split; [vm_compute; by eexists|].
  split; vm_compute; reflexivity.
Qed.

(** ** The further properties at concrete inputs *)

Lemma extract_image_url_raises_only_attribute_error_witness :
  extract_image_url Demo.py_repr Demo.scalar_sequence_manifest
  = Raise AttributeError.
Proof.
  destruct (extract_image_url Demo.py_repr Demo.scalar_sequence_manifest)
    as [v|e] eqn:E; [vm_compute in E; discriminate E|].
  f_equal.
  exact (extract_image_url_raises_only_attribute_error Demo.py_repr
           Demo.scalar_sequence_manifest e E).
Defined.

Lemma extract_image_url_prefers_resource_id_witness :
  extract_image_url Demo.py_repr
    (JObj [(u "thumbnail", JObj [(u "@id", JStr (u "https://example.org/t.jpg"))]);
           (u "sequences",
            JArr [JObj [(u "canvases",
              JArr [JObj [(u "images",
                JArr [JObj [(u "resource",
                  JObj [(u "@id", JStr (u "https://example.org/a.jpg"))])]])]])]])])
  = Ok (JStr (u "https://example.org/a.jpg")).
Proof.
  eapply (extract_image_url_prefers_resource_id Demo.py_repr);
    vm_compute; reflexivity.
Defined.

Lemma extract_image_url_service_fallback_witness :
  extract_image_url Demo.py_repr
    (JObj [(u "sequences",
            JArr [JObj [(u "canvases",
              JArr [JObj [(u "images",
                JArr [JObj [(u "resource",
                  JObj [(u "service",
                         JObj [(u "@id", JStr (u "https://example.org/iiif/2/a"))])])]])]])]])])
  = Ok (JStr (u "https://example.org/iiif/2/a" ++ u "/full/800,/0/default.jpg")).
Proof.
  eapply (extract_image_url_service_fallback Demo.py_repr);
    try (vm_compute; reflexivity).
  vm_compute. discriminate.
Defined.

Lemma extract_image_url_thumbnail_fallback_witness :
  extract_image_url Demo.py_repr
    (JObj [(u "sequences", JArr []);
           (u "thumbnail", JArr [JObj [(u "@id", JStr (u "https://example.org/t.jpg"))]])])
  = Ok (JStr (u "https://example.org/t.jpg")).
Proof.
  refine (proj2 (proj2 (extract_image_url_thumbnail_fallback Demo.py_repr
            [(u "sequences", JArr []);
             (u "thumbnail",
              JArr [JObj [(u "@id", JStr (u "https://example.org/t.jpg"))]])] _))
            [(u "@id", JStr (u "https://example.org/t.jpg"))] [] _);
    vm_compute; reflexivity.
Defined.

Lemma extract_image_url_empty_lists_fall_back_witness :
  extract_image_url Demo.py_repr
    (JObj [(u "sequences", JArr [JObj [(u "canvases", JArr [])]]);
           (u "thumbnail", JObj [(u "@id", JStr (u "https://example.org/t.jpg"))])])
  = Ok (JStr (u "https://example.org/t.jpg")).
Proof.
  apply (extract_image_url_empty_lists_fall_back Demo.py_repr _
           [(u "canvases", JArr [])]
           [(u "@id", JStr (u "https://example.org/t.jpg"))] []);
    [vm_compute; reflexivity | left; vm_compute; reflexivity
    | vm_compute; reflexivity].
Defined.

Lemma fetch_manifest_read_through_witness :
  exists w1,
    fetch_manifest Ascii.lower Ascii.is_word Ascii.is_space Demo.echo_json
      Demo.uri_12_3 Demo.empty_world
    = (Some (JObj [(u "@id", JStr Demo.uri_12_3)]), w1) /\
    fetch_manifest Ascii.lower Ascii.is_word Ascii.is_space Demo.echo_json
      Demo.uri_12_3 w1
    = (Some (JObj [(u "@id", JStr Demo.uri_12_3)]), w1).
Proof.
  set (r := fetch_manifest Ascii.lower Ascii.is_word Ascii.is_space
              Demo.echo_json Demo.uri_12_3 Demo.empty_world).
  assert (H : r = (Some (JObj [(u "@id", JStr Demo.uri_12_3)]), snd r))
    by (vm_compute; reflexivity).
  exists (snd r). split; [exact H|].
  exact (fetch_manifest_read_through Ascii.lower Ascii.is_word Ascii.is_space
           Demo.echo_json Demo.uri_12_3 Demo.empty_world (snd r) _ H).
Defined.

Lemma fetch_manifest_failure_not_cached_witness :
  Demo.fetch_manifest (manifest Demo.item_d) Demo.empty_world
  = (None, emit (NetManifest (manifest Demo.item_d)) Demo.empty_world) /\
  Demo.http_get_json (manifest Demo.item_d) = None.
Proof.
  assert (H : Demo.fetch_manifest (manifest Demo.item_d) Demo.empty_world
              = (None, emit (NetManifest (manifest Demo.item_d)) Demo.empty_world))
    by (vm_compute; reflexivity).
  split; [exact H|].
  exact (proj2 (proj1 (proj1 (fetch_manifest_failure_not_cached Ascii.lower
                                Ascii.is_word Ascii.is_space Demo.http_get_json
                                _ _ _ _ H)) eq_refl)).
Defined.

Lemma fetch_manifest_repairs_corrupt_file_witness :
  exists w1,
    Demo.fetch_manifest (manifest Demo.item_a) Demo.corrupt_world
    = (Some (Demo.manifest_doc "https://example.org/a.jpg"), w1) /\
    log w1 = [NetManifest (manifest Demo.item_a)].
Proof.
  destruct (fetch_manifest_repairs_corrupt_file Ascii.lower Ascii.is_word
              Ascii.is_space Demo.http_get_json (manifest Demo.item_a)
              Demo.corrupt_world (Demo.manifest_doc "https://example.org/a.jpg"))
    as (w1 & H1 & H2 & _).
  - vm_compute; reflexivity.
  - vm_compute; reflexivity.
  - exists w1. split; [exact H1|exact H2].
Defined.

Lemma cosine_sim_matrix_square_symmetric_witness :
  cosine_sim_matrix [[1; 0]; [3 # 5; 4 # 5]]%Q !! 0%nat ≫= (fun row => row !! 1%nat)
  = Some (dot [1; 0] [3 # 5; 4 # 5])%Q.
Proof.
  destruct (proj2 (proj2 (cosine_sim_matrix_square_symmetric
                            [[1; 0]; [3 # 5; 4 # 5]]%Q))
              0%nat 1%nat [1; 0]%Q [3 # 5; 4 # 5]%Q eq_refl eq_refl)
    as (x & y & Hx & _ & -> & _).
  exact Hx.
Defined.

Lemma neighbours_most_similar_first_witness :
  length Demo.first_ids = length Demo.first_embeddings /\
  exists others : list (nat * list Q),
    others ≡ₚ filter (fun p : nat * list Q => fst p <> 0%nat)
                (valid_of Demo.first_embeddings) /\
    StronglySorted (closer [1; 0]%Q) others /\
    Forall (fun p => is_Some (Demo.first_ids !! fst p)) others /\
    neighbours 3 Demo.first_ids Demo.first_embeddings 0 [1; 0]%Q
    = py_take 3 (omap (fun p : nat * list Q => Demo.first_ids !! fst p) others).
Proof.
  split; [reflexivity|].
  exact (neighbours_most_similar_first 3 Demo.first_ids Demo.first_embeddings
           0%nat [1; 0]%Q eq_refl).
Defined.

Lemma neighbours_without_duplicates_witness :
  NoDup Demo.first_ids /\
  NoDup (neighbours 3 Demo.first_ids Demo.first_embeddings 0 [1; 0]%Q).
Proof.
  assert (H : NoDup Demo.first_ids).
  { unfold Demo.first_ids. apply NoDup_cons. split.
    - intros Hin. apply list_elem_of_singleton in Hin. vm_compute in Hin.
      discriminate Hin.
    - apply NoDup_singleton. }
  split; [exact H|].
  exact (neighbours_without_duplicates 3 Demo.first_ids Demo.first_embeddings
           0%nat [1; 0]%Q H).
Defined.

Lemma two_embedded_items_list_each_other_witness :
  exists out,
    phase2_assign_similar 3 [Demo.item_a; Demo.item_b; Demo.item_c]
      [Some [1; 0]%Q; Some [0; 1]%Q; None]
      [u "train-a"; u "train-b"; u "train-c"] = Ok out /\
    out !! 0%nat = Some (set_similar_items [u "train-b"] Demo.item_a) /\
    out !! 1%nat = Some (set_similar_items [u "train-a"] Demo.item_b).
Proof.
  apply (two_embedded_items_list_each_other 3 3
           [Demo.item_a; Demo.item_b; Demo.item_c]
           [Some [1; 0]%Q; Some [0; 1]%Q; None]
           [u "train-a"; u "train-b"; u "train-c"]
           0%nat 1%nat [1; 0]%Q [0; 1]%Q (u "train-a") (u "train-b"));
    try reflexivity. lia.
Defined.

Lemma slugify_fixes_slugs_witness :
  Ascii.slug (Ascii.slug (u "Broad Street Station, 1905"))
  = Ascii.slug (u "Broad Street Station, 1905").
Proof.
  apply (slugify_fixes_slugs Ascii.lower Ascii.is_word Ascii.is_space).
  - vm_compute; reflexivity.
  - apply Forall_forall. intros c Hc.
    assert (Hchk : forallb (fun c => (Ascii.is_word c || (c =? HYPHEN)%N)
                                     && negb (Ascii.is_space c)
                                     && negb (c =? UNDERSCORE)%N)
                     (Ascii.slug (u "Broad Street Station, 1905")) = true)
      by (vm_compute; reflexivity).
    rewrite forallb_forall in Hchk. apply list_elem_of_In, Hchk in Hc.
    apply andb_true_iff in Hc as [Hc Hu]. apply andb_true_iff in Hc as [Hw Hs].
    apply negb_true_iff in Hs, Hu. apply orb_true_iff in Hw.
    split; [|split; [done|by apply N.eqb_neq]].
    destruct Hw as [?|Hh]; [by left|right; by apply N.eqb_eq].
  - vm_compute. lia.
Defined.

Lemma slugify_empty_without_word_characters_witness :
  Ascii.slug (u " ?!... ") = [].
Proof.
  apply (slugify_empty_without_word_characters Ascii.lower Ascii.is_word
           Ascii.is_space).
  apply Forall_forall. intros c Hc.
  assert (Hchk : forallb (fun c => negb (Ascii.is_word c) && negb (c =? HYPHEN)%N)
                   (Ascii.lower (u " ?!... ")) = true)
    by (vm_compute; reflexivity).
  rewrite forallb_forall in Hchk. apply list_elem_of_In, Hchk in Hc.
  apply andb_true_iff in Hc as [Hw Hh]. apply negb_true_iff in Hw, Hh.
  split; [done|by apply N.eqb_neq].
Defined.

Lemma tags_are_the_best_scoring_labels_witness :
  Demo.tag_image [1; 0]%Q (prompts Demo.TAG_PROMPTS) 4
  = rank_labels (prompts Demo.TAG_PROMPTS)
      (List.map (Demo.clip_logit_per_image [1; 0]%Q) (prompts Demo.TAG_PROMPTS)) 4.
Proof.
  apply (proj1 (tags_are_the_best_scoring_labels Demo.image
                  Demo.clip_logit_per_image Demo.clip_text_features
                  Demo.logit_scale_exp Demo.unit_norm Demo.exp demo_exp_nonneg
                  demo_exp_monotone [1; 0]%Q [1; 0]%Q (prompts Demo.TAG_PROMPTS) 4)).
  apply increasing_distinct_kept.
  - exact demo_exp_proper.
  - exact demo_exp_nonneg.
  - vm_compute; reflexivity.
  - exact demo_exp_increasing.
Defined.

Lemma all_labels_when_count_covers_vocabulary_witness :
  (length (prompts Demo.TAG_PROMPTS) <= 18)%nat /\
  Demo.tag_image [1; 0]%Q (prompts Demo.TAG_PROMPTS) 18 ≡ₚ prompts Demo.TAG_PROMPTS.
Proof.
  assert (H : (length (prompts Demo.TAG_PROMPTS) <= 18)%nat)
    by (vm_compute; lia).
  split; [exact H|].
  exact (proj1 (all_labels_when_count_covers_vocabulary Demo.image
                  Demo.clip_logit_per_image Demo.clip_text_features
                  Demo.logit_scale_exp Demo.unit_norm Demo.exp 18 [1; 0]%Q
                  [1; 0]%Q (prompts Demo.TAG_PROMPTS) H)).
Defined.

Lemma negative_count_drops_from_the_end_witness :
  length (Demo.tag_image [1; 0]%Q (prompts Demo.TAG_PROMPTS) (-1))
  = (length (prompts Demo.TAG_PROMPTS) - Z.to_nat (- (-1)))%nat.
Proof.
  apply (negative_count_drops_from_the_end Demo.image Demo.clip_logit_per_image
           Demo.exp (-1) [1; 0]%Q (prompts Demo.TAG_PROMPTS)).
  reflexivity.
Defined.

Lemma caches_only_grow_witness :
  exists r w',
    Demo.phase1 true [Demo.item_a; Demo.item_b] Demo.cached_world = (r, w') /\
    emb_files w' !! u "train-a" = Some [1; 0]%Q.
Proof.
  set (run := Demo.phase1 true [Demo.item_a; Demo.item_b] Demo.cached_world).
  exists (fst run), (snd run).
  assert (H : run = (fst run, snd run)) by (by destruct run).
  split; [exact H|].
  apply (proj1 (caches_only_grow Ascii.lower Ascii.is_word Ascii.is_space
                  Demo.py_repr Demo.image Demo.clip_logit_per_image
                  Demo.clip_image_features Demo.clip_text_features
                  Demo.logit_scale_exp Demo.unit_norm Demo.exp
                  Demo.http_get_json Demo.http_get_image Demo.TAG_PROMPTS
                  Demo.TOP_TAGS true [Demo.item_a; Demo.item_b]
                  Demo.cached_world (snd run) (fst run) H)).
  vm_compute; reflexivity.
Defined.

Lemma phase1_keeps_alignment_witness :
  exists w',
    Demo.first_phase1 = (Ok (Demo.first_items, Demo.first_embeddings), w') /\
    length Demo.first_items = 2%nat /\
    length Demo.first_embeddings = 2%nat.
Proof.
  exists (snd Demo.first_phase1).
  assert (H : Demo.first_phase1
              = (Ok (Demo.first_items, Demo.first_embeddings), snd Demo.first_phase1))
    by (vm_compute; reflexivity).
  split; [exact H|].
  destruct (phase1_keeps_alignment Ascii.lower Ascii.is_word Ascii.is_space
              Demo.py_repr Demo.image Demo.clip_logit_per_image
              Demo.clip_image_features Demo.clip_text_features
              Demo.logit_scale_exp Demo.unit_norm Demo.exp Demo.http_get_json
              Demo.http_get_image Demo.TAG_PROMPTS Demo.TOP_TAGS false
              [Demo.item_a; Demo.item_b] Demo.first_items Demo.first_embeddings
              Demo.empty_world (snd Demo.first_phase1) H) as (H1 & H2 & _).
  split; [exact H1|exact H2].
Defined.


Lemma enrich_output_is_catalog_witness :
  exists w',
    Demo.first_run = (Ok (Demo.artifact_of Demo.first_run), w') /\
    length (Demo.artifact_of Demo.first_run) = 2%nat.
Proof.
  exists (snd Demo.first_run).
  assert (H : Demo.first_run
              = (Ok (Demo.artifact_of Demo.first_run), snd Demo.first_run))
    by (vm_compute; reflexivity).
  split; [exact H|].
  exact (proj1 (enrich_output_is_catalog Ascii.lower Ascii.is_word
                  Ascii.is_space Demo.py_repr Demo.image
                  Demo.clip_logit_per_image Demo.clip_image_features
                  Demo.clip_text_features Demo.logit_scale_exp Demo.unit_norm
                  Demo.exp Demo.http_get_json Demo.http_get_image
                  Demo.TAG_PROMPTS Demo.TOP_TAGS Demo.TOP_SIMILAR false
                  [Demo.item_a; Demo.item_b] (Demo.artifact_of Demo.first_run)
                  Demo.empty_world (snd Demo.first_run) H)).
Defined.

Lemma fresh_item_embedded_iff_witness :
  exists it' emb w',
    Demo.process_item Demo.TOP_TAGS false Demo.item_a Demo.empty_world
    = (Ok (it', emb), w') /\
    is_Some emb.
Proof.
  set (run := Demo.process_item Demo.TOP_TAGS false Demo.item_a Demo.empty_world).
  set (it' := set_visual_tags
                (List.map (prompt_to_label Demo.TAG_PROMPTS)
                   (Demo.tag_image [1; 0]%Q (prompts Demo.TAG_PROMPTS) Demo.TOP_TAGS))
                (set_image_url (JStr (u "https://example.org/a.jpg"))
                   (set_id (u "train-a") Demo.item_a))).
  assert (H : run = (Ok (it', Some [1; 0]%Q), snd run)) by (vm_compute; reflexivity).
  exists it', (Some [1; 0]%Q), (snd run). split; [exact H|].
  apply (proj1 (fresh_item_embedded_iff Ascii.lower Ascii.is_word Ascii.is_space
                  Demo.py_repr Demo.image Demo.clip_logit_per_image
                  Demo.clip_image_features Demo.clip_text_features
                  Demo.logit_scale_exp Demo.unit_norm Demo.exp
                  Demo.http_get_json Demo.http_get_image Demo.TAG_PROMPTS
                  Demo.TOP_TAGS false Demo.item_a it' (Some [1; 0]%Q)
                  Demo.empty_world (snd run) eq_refl H)).
  exists (Demo.manifest_doc "https://example.org/a.jpg"),
    (JStr (u "https://example.org/a.jpg")), [1; 0]%Q.
  repeat split; vm_compute; reflexivity.
Defined.

Lemma fresh_item_fields_consistent_witness :
  exists out w' o,
    Demo.enrich false [Demo.item_a; Demo.item_b; Demo.item_c] Demo.empty_world
    = (Ok out, w') /\
    out !! 2%nat = Some o /\
    (is_Some (similar_items o) -> is_Some (visual_tags o)).
Proof.
  set (run := Demo.enrich false [Demo.item_a; Demo.item_b; Demo.item_c]
                Demo.empty_world).
  set (o := set_image_url (JStr (u "https://example.org/c.jpg"))
              (set_id (u "train-c") Demo.item_c)).
  assert (H : run = (Ok (Demo.artifact_of run), snd run)) by (vm_compute; reflexivity).
  assert (Ho : Demo.artifact_of run !! 2%nat = Some o) by (vm_compute; reflexivity).
  exists (Demo.artifact_of run), (snd run), o. split; [exact H|]. split; [exact Ho|].
  exact (proj1 (fresh_item_fields_consistent Ascii.lower Ascii.is_word
                  Ascii.is_space Demo.py_repr Demo.image
                  Demo.clip_logit_per_image Demo.clip_image_features
                  Demo.clip_text_features Demo.logit_scale_exp Demo.unit_norm
                  Demo.exp Demo.http_get_json Demo.http_get_image
                  Demo.TAG_PROMPTS Demo.TOP_TAGS Demo.TOP_SIMILAR false
                  [Demo.item_a; Demo.item_b; Demo.item_c] (Demo.artifact_of run)
                  Demo.empty_world (snd run) 2%nat Demo.item_c o H eq_refl Ho
                  eq_refl eq_refl)).
Defined.

Lemma colliding_titles_share_embedding_witness :
  Ascii.slug (title Demo.item_a_twin) = Ascii.slug (title Demo.item_a) /\
  exists a' w1 b' ev,
    Demo.process_item Demo.TOP_TAGS false Demo.item_a Demo.empty_world
    = (Ok (a', Some [1; 0]%Q), w1) /\
    Demo.process_item Demo.TOP_TAGS false Demo.item_a_twin w1
    = (Ok (b', Some [1; 0]%Q), emit ev w1) /\
    is_fetch ev = false.
Proof.
  assert (Hs : Ascii.slug (title Demo.item_a_twin) = Ascii.slug (title Demo.item_a))
    by (vm_compute; reflexivity).
  split; [exact Hs|].
  set (run := Demo.process_item Demo.TOP_TAGS false Demo.item_a Demo.empty_world).
  set (a' := set_visual_tags
               (List.map (prompt_to_label Demo.TAG_PROMPTS)
                  (Demo.tag_image [1; 0]%Q (prompts Demo.TAG_PROMPTS) Demo.TOP_TAGS))
               (set_image_url (JStr (u "https://example.org/a.jpg"))
                  (set_id (u "train-a") Demo.item_a))).
  assert (H : run = (Ok (a', Some [1; 0]%Q), snd run)) by (vm_compute; reflexivity).
  destruct (colliding_titles_share_embedding Ascii.lower Ascii.is_word
              Ascii.is_space Demo.py_repr Demo.image Demo.clip_logit_per_image
              Demo.clip_image_features Demo.clip_text_features
              Demo.logit_scale_exp Demo.unit_norm Demo.exp Demo.http_get_json
              Demo.http_get_image Demo.TAG_PROMPTS Demo.TOP_TAGS false
              Demo.item_a Demo.item_a_twin a' [1; 0]%Q Demo.empty_world
              (snd run) H Hs) as (b' & ev & Hb & Hev & _).
  exists a', (snd run), b', ev. split; [exact H|]. split; [exact Hb|exact Hev].
Defined.

Lemma fetch_manifest_frame_witness :
  emb_files (snd (Demo.fetch_manifest (manifest Demo.item_a) Demo.cached_world))
  = emb_files Demo.cached_world.
Proof.
  exact (proj1 (fetch_manifest_frame Ascii.lower Ascii.is_word Ascii.is_space
                  Demo.http_get_json (manifest Demo.item_a) Demo.cached_world)).
Defined.

Lemma tag_distribution_exact_witness :
  NoDup (List.map fst (tag_counts_of Demo.first_items)) /\
  tag_distribution Demo.first_items ≡ₚ tag_counts_of Demo.first_items.
Proof.
  split.
  - exact (proj1 (tag_distribution_exact Demo.first_items)).
  - exact (proj1 (proj2 (proj2 (proj2 (tag_distribution_exact Demo.first_items))))).
Defined.
